(** * pySim TLV codecs and the Data Object grammar (pySim/utils.py)

    A shallow embedding of the BER-TLV / COMPREHENSION-TLV tag and length
    codecs and of the DataObject, DataObjectCollection, DataObjectChoice and
    DataObjectSequence classes, followed by the properties checked against
    them.  Python integers are [Z] (unbounded, two's complement bit
    operations), a [bytes] value is a list of [byte], a raised exception is
    the [Raise] outcome, and the objects a grammar shares by reference live
    in an explicit store. *)

From Stdlib Require Import ZArith Lia.
From Stdlib Require Strings.Byte.
From stdpp Require Import base option list functions gmap strings.
From Stdlib Require Import Ascii.
From Stdlib Require DecimalString.

Local Open Scope Z_scope.

(** ** Outcomes of a Python call *)

Inductive exn : Set :=
  | IndexError | ValueError | TypeError | KeyError | OverflowError.

(** [OutOfFuel] is the outcome of a loop that was cut after the number of
    iterations it was given; a call that returns [OutOfFuel] for every amount
    of fuel does not terminate. *)
Inductive result (A : Type) : Type :=
  | Ok (a : A)
  | Raise (e : exn)
  | OutOfFuel.
Arguments Ok {A} a.
Arguments Raise {A} e.
Arguments OutOfFuel {A}.

#[global] Instance result_ret : MRet result := @Ok.
#[global] Instance result_bind : MBind result := fun A B f m =>
  match m with
  | Ok a => f a
  | Raise e => Raise e
  | OutOfFuel => OutOfFuel
  end.

(** ** Bytes and integers *)

Import Corelib.Init.Byte.

Abbreviation bytes := (list byte).

(** Indexing a [bytes] object yields an int in [0, 255]. *)
Definition byte_val (b : byte) : Z := Z.of_N (Byte.to_N b).

(** [binary[i]]: IndexError when [i] is past the end. *)
Definition getitem (binary : bytes) (i : nat) : result Z :=
  match binary !! i with
  | Some b => Ok (byte_val b)
  | None => Raise IndexError
  end.

(** [bytes([t])]: ValueError unless [0 <= t < 256]. *)
Definition bytes_of_int (t : Z) : result bytes :=
  if t <? 0 then Raise ValueError
  else match Byte.of_N (Z.to_N t) with
       | Some b => Ok [b]
       | None => Raise ValueError
       end.

(** The low eight bits of [z] as a byte. *)
Definition low_byte (z : Z) : byte :=
  default x00 (Byte.of_N (Z.to_N (z mod 256))).

Fixpoint be_bytes (len : nat) (n : Z) : bytes :=
  match len with
  | O => []
  | S k => low_byte (Z.shiftr n (8 * Z.of_nat k)) :: be_bytes k n
  end.

(** [n.to_bytes(len, 'big')]: OverflowError for a negative int and for an int
    too big for [len] bytes. *)
Definition int_to_bytes (n : Z) (len : nat) : result bytes :=
  if n <? 0 then Raise OverflowError
  else if 256 ^ Z.of_nat len <=? n then Raise OverflowError
  else Ok (be_bytes len n).

(** [int.bit_length()] *)
Definition bit_length (z : Z) : Z :=
  if z =? 0 then 0 else Z.log2 (Z.abs z) + 1.

(** Truth value of an int. *)
Definition truthy (z : Z) : bool := negb (z =? 0).

(** ** COMPREHENSION-TLV tags *)

Definition comprehensiontlv_parse_tag_raw (binary : bytes)
  : result (option Z * bytes) :=
  b0 ← getitem binary 0;
  if bool_decide (b0 ∈ [0x00; 0x80; 0xff]) then Raise ValueError
  else if b0 =? 0x7f then
    (* three-byte tag *)
    b1 ← getitem binary 1;
    b2 ← getitem binary 2;
    Ok (Some (Z.lor (Z.lor (Z.shiftl b0 16) (Z.shiftl b1 8)) b2), drop 3 binary)
  else if b0 =? 0xff then Ok (None, binary)
  else
    (* single byte tag *)
    Ok (Some b0, drop 1 binary).

Record ComprTag : Set := mkComprTag { comprehension : bool; compr_tag : Z }.

Definition comprehensiontlv_parse_tag (binary : bytes)
  : result (ComprTag * bytes) :=
  b0 ← getitem binary 0;
  if bool_decide (b0 ∈ [0x00; 0x80; 0xff]) then Raise ValueError
  else if b0 =? 0x7f then
    (* three-byte tag *)
    b1 ← getitem binary 1;
    let tag := Z.shiftl (Z.land b1 0x7f) 8 in
    b2 ← getitem binary 2;
    let tag := Z.lor tag b2 in
    let compr := truthy (Z.land b1 0x80) in
    Ok (mkComprTag compr tag, drop 3 binary)
  else
    (* single byte tag *)
    let tag := Z.land b0 0x7f in
    let compr := truthy (Z.land b0 0x80) in
    Ok (mkComprTag compr tag, drop 1 binary).

(** ** BER-TLV tags *)

(** The dict [{'class': .., 'constructed': .., 'tag': ..}]. *)
Record BerTag : Set := mkBerTag { cls : Z; constructed : bool; tag : Z }.

(** The [while not last] loop of [bertlv_parse_tag]; [rest] is [binary[i:]]. *)
Fixpoint bertlv_parse_tag_loop (tag : Z) (rest : bytes) : result (Z * bytes) :=
  match rest with
  | [] => Raise IndexError
  | b :: rest' =>
      let last := negb (truthy (Z.land (byte_val b) 0x80)) in
      let tag := Z.shiftl tag 7 in
      let tag := Z.lor tag (Z.land (byte_val b) 0x7f) in
      if last then Ok (tag, rest') else bertlv_parse_tag_loop tag rest'
  end.

Definition bertlv_parse_tag (binary : bytes) : result (BerTag * bytes) :=
  b0 ← getitem binary 0;
  let cls := Z.shiftr b0 6 in
  let constructed := truthy (Z.land b0 0x20) in
  let tag := Z.land b0 0x1f in
  if tag <=? 30 then Ok (mkBerTag cls constructed tag, drop 1 binary)
  else
    (* multi-byte tag *)
    '(tag, rest) ← bertlv_parse_tag_loop 0 (drop 1 binary);
    Ok (mkBerTag cls constructed tag, rest).

(** Get top 7 bits of integer. *)
Definition get_top7_bits (inp : Z) : Z * Z :=
  let remain_bits := bit_length inp in
  let bitcnt := if 7 <=? remain_bits then 7 else remain_bits in
  let outp := Z.shiftr inp (remain_bits - bitcnt) in
  let remainder := Z.land inp (Z.lnot (Z.shiftl inp (remain_bits - bitcnt))) in
  (outp, remainder).

(** The [while inp] loop of [count_int_bytes]. *)
Fixpoint count_int_bytes_loop (fuel : nat) (i : nat) (inp : Z) : result nat :=
  if truthy inp then
    match fuel with
    | O => OutOfFuel
    | S fuel' => count_int_bytes_loop fuel' (S i) (Z.shiftr inp 8)
    end
  else Ok i.

Definition count_int_bytes (fuel : nat) (inp : Z) : result nat :=
  count_int_bytes_loop fuel 1 (Z.shiftr inp 8).

(** The [while True] loop of the multi-byte branch of [bertlv_encode_tag]. *)
Fixpoint bertlv_encode_tag_loop (fuel : nat) (tag_bytes : bytes) (remain : Z)
  : result bytes :=
  match fuel with
  | O => OutOfFuel
  | S fuel' =>
      let '(t, remain) := get_top7_bits remain in
      let t := if truthy remain then Z.lor t 0x80 else t in
      b ← bytes_of_int t;
      let tag_bytes := tag_bytes ++ b in
      if negb (truthy remain) then Ok tag_bytes
      else bertlv_encode_tag_loop fuel' tag_bytes remain
  end.

(** [bertlv_encode_tag] on a dict. *)
Definition bertlv_encode_tag_dict (fuel : nat) (t : BerTag) : result bytes :=
  let tag := tag t in
  let constructed := constructed t in
  let cls := cls t in
  if tag <=? 30 then
    let t := Z.land tag 0x1f in
    let t := if constructed then Z.lor t 0x20 else t in
    let t := Z.lor t (Z.shiftl (Z.land cls 3) 6) in
    bytes_of_int t
  else
    (* multi-byte tag *)
    let t := 0x1f in
    let t := if constructed then Z.lor t 0x20 else t in
    let t := Z.lor t (Z.shiftl (Z.land cls 3) 6) in
    tag_bytes ← bytes_of_int t;
    bertlv_encode_tag_loop fuel tag_bytes tag.

(** The argument of [bertlv_encode_tag]: an int, a dict, or (from a
    DataObject built without a tag) None. *)
Inductive tag_arg : Set :=
  | TagInt (t : Z)
  | TagDict (t : BerTag)
  | TagNone.

Definition bertlv_encode_tag (fuel : nat) (t : tag_arg) : result bytes :=
  match t with
  | TagInt t =>
      (* first convert to a dict representation *)
      tag_size ← count_int_bytes fuel t;
      b ← int_to_bytes t tag_size;
      '(t, _) ← bertlv_parse_tag b;
      bertlv_encode_tag_dict fuel t
  | TagDict t => bertlv_encode_tag_dict fuel t
  | TagNone => Raise TypeError
  end.

(** ** BER-TLV lengths *)

Definition bertlv_parse_len (binary : bytes) : result (Z * bytes) :=
  b0 ← getitem binary 0;
  if b0 <? 0x80 then Ok (b0, drop 1 binary)
  else
    let num_len_oct := Z.to_nat (Z.land b0 0x7f) in
    let length0 := 0 in
    if (length binary <? num_len_oct + 1)%nat then Ok (0, [])
    else
      length ← foldl (fun acc i =>
                        length ← acc;
                        let length := Z.shiftl length 8 in
                        bi ← getitem binary i;
                        Ok (Z.lor length bi))
                     (Ok length0) (seq 1 num_len_oct);
      Ok (length, drop (1 + num_len_oct) binary).

Definition bertlv_encode_len (length : Z) : result bytes :=
  if length <? 0x80 then int_to_bytes length 1
  else if length <=? 0xff then b ← int_to_bytes length 1; Ok (x81 :: b)
  else if length <=? 0xffff then b ← int_to_bytes length 2; Ok (x82 :: b)
  else if length <=? 0xffffff then b ← int_to_bytes length 3; Ok (x83 :: b)
  else if length <=? 0xffffffff then b ← int_to_bytes length 4; Ok (x84 :: b)
  else Raise ValueError.

(** ** The object store

    A grammar is built once and its nodes are shared by reference: the members
    list and the two indices of a collection hold references to the same
    DataObject instances, and parsing writes into those instances.  A
    reference is a location of the store. *)

(** Decoded values. *)
Inductive pyval : Type :=
  | PyNone
  | PyBool (b : bool)
  | PyInt (z : Z)
  | PyStr (s : string)
  | PyBytes (b : bytes).

(** A dict with string keys, in insertion order. *)
Abbreviation pydict := (list (string * pyval)).

(** The class of a DataObject instance: [TL0_DataObject], or another subclass
    given by its [from_bytes] and [to_bytes]; [from_bytes] computes the value
    that the instance keeps in [decoded], [to_bytes] encodes that value. *)
Inductive do_class : Type :=
  | TL0_DataObject
  | Subclass (from_bytes : bytes → result pyval) (to_bytes : pyval → result bytes).

Record DataObject : Type := mkDataObject {
  do_name : string;
  do_desc : option string;
  do_tag : option Z;
  do_decoded : pyval;
  do_encoded : pyval;
  do_val : pyval;            (* TL0_DataObject only *)
  do_class_of : do_class
}.

Definition loc : Set := nat.
Definition store : Type := loc → DataObject.

(** A method call: it reads and writes the store, and the writes made before
    an exception stay. *)
Definition ST (A : Type) : Type := store → store * result A.

#[global] Instance ST_ret : MRet ST := fun A a h => (h, Ok a).
#[global] Instance ST_bind : MBind ST := fun A B f m h =>
  match m h with
  | (h', Ok a) => f a h'
  | (h', Raise e) => (h', Raise e)
  | (h', OutOfFuel) => (h', OutOfFuel)
  end.

Definition lift {A} (r : result A) : ST A := fun h => (h, r).
Definition raise {A} (e : exn) : ST A := lift (Raise e).
Definition get_obj (l : loc) : ST DataObject := fun h => (h, Ok (h l)).

(** [obj.decoded = v] *)
Definition with_decoded (o : DataObject) (v : pyval) : DataObject :=
  mkDataObject (do_name o) (do_desc o) (do_tag o) v (do_encoded o) (do_val o)
               (do_class_of o).
Definition set_decoded (l : loc) (v : pyval) : ST () :=
  fun h => (<[l := with_decoded (h l) v]> h, Ok ()).

(** ** DataObject *)

Definition DataObject_init (name : string) (desc : option string)
    (tag : option Z) (val : pyval) (c : do_class) : DataObject :=
  mkDataObject name desc tag PyNone PyNone val c.

Definition DataObject_compute_tag (self : loc) : ST tag_arg :=
  o ← get_obj self;
  mret (from_option TagInt TagNone (do_tag o)).

Definition DataObject_to_dict (self : loc) : ST pydict :=
  o ← get_obj self;
  mret [(do_name o, do_decoded o)].

Definition DataObject_from_bytes (self : loc) (do : bytes) : ST () :=
  o ← get_obj self;
  match do_class_of o with
  | TL0_DataObject =>
      if negb (length do =? 0)%nat then raise ValueError
      else set_decoded self (do_val o)
  | Subclass from_bytes _ =>
      v ← lift (from_bytes do);
      set_decoded self v
  end.

Definition DataObject_to_bytes (self : loc) : ST bytes :=
  o ← get_obj self;
  match do_class_of o with
  | TL0_DataObject => mret []
  | Subclass _ to_bytes => lift (to_bytes (do_decoded o))
  end.

(** [a != self.tag] for an int [a]; an int never equals None. *)
Definition tag_ne (a : Z) (t : option Z) : bool :=
  match t with
  | Some t => negb (a =? t)
  | None => true
  end.

(** The exception of a tag mismatch: a ValueError whose message formats
    [self.tag] with [%02x]; formatting None that way is a TypeError. *)
Definition tag_mismatch (t : option Z) : exn :=
  match t with
  | Some _ => ValueError
  | None => TypeError
  end.

Definition DataObject_from_tlv (self : loc) (do : bytes) : ST bytes :=
  o ← get_obj self;
  do0 ← lift (getitem do 0);
  if tag_ne do0 (do_tag o) then raise (tag_mismatch (do_tag o))
  else
    length ← lift (getitem do 1);
    let val := take (Z.to_nat length) (drop 2 do) in
    _ ← DataObject_from_bytes self val;
    (* return remaining bytes *)
    mret (drop (2 + Z.to_nat length) do).

Definition DataObject_to_tlv (fuel : nat) (self : loc) : ST bytes :=
  val ← DataObject_to_bytes self;
  t ← DataObject_compute_tag self;
  tb ← lift (bertlv_encode_tag fuel t);
  lb ← lift (bertlv_encode_len (Z.of_nat (length val)));
  mret (tb ++ lb ++ val).

Definition DataObject_decode (self : loc) (binary : bytes) : ST (pydict * bytes) :=
  o ← get_obj self;
  tag ← lift (getitem binary 0);
  if tag_ne tag (do_tag o) then raise (tag_mismatch (do_tag o))
  else
    remainder ← DataObject_from_tlv self binary;
    d ← DataObject_to_dict self;
    mret (d, remainder).

Definition DataObject_encode (fuel : nat) (self : loc) : ST bytes :=
  DataObject_to_tlv fuel self.

(** ** DataObjectCollection *)

Record DataObjectCollection : Type := mkDataObjectCollection {
  coll_name : option string;
  coll_desc : option string;
  members : list loc;
  members_by_tag : gmap (option Z) loc;
  members_by_name : gmap string loc
}.

(** [__init__(self, name, desc=None, members=None)]; [members = None] is the
    default argument.  Iterating over None raises TypeError. *)
Definition DataObjectCollection_init (name desc : option string)
    (members : option (list loc)) (h : store) : result DataObjectCollection :=
  let self_members := default [] members in            (* members or [] *)
  by_tag ← match members with
           | Some ms => Ok (foldl (fun d m => <[do_tag (h m) := m]> d) ∅ ms)
           | None => Raise TypeError
           end;
  by_name ← match members with
            | Some ms => Ok (foldl (fun d m => <[do_name (h m) := m]> d) ∅ ms)
            | None => Raise TypeError
            end;
  Ok (mkDataObjectCollection name desc self_members by_tag by_name).

(** The [while len(remainder)] loop of [decode]. *)
Fixpoint DataObjectCollection_decode_loop (fuel : nat)
    (self : DataObjectCollection) (res : list pydict) (remainder : bytes)
  : ST (list pydict * bytes) :=
  match fuel with
  | O => lift OutOfFuel
  | S fuel' =>
      if (length remainder =? 0)%nat then mret (res, remainder)
      else
        tag ← lift (getitem remainder 0);
        if tag =? 0xff then mret (res, remainder)  (* uninitialized memory *)
        else match members_by_tag self !! Some tag with
             | None => raise ValueError
             | Some obj =>
                 remainder ← DataObject_from_tlv obj remainder;
                 d ← DataObject_to_dict obj;
                 DataObjectCollection_decode_loop fuel' self (res ++ [d]) remainder
             end
  end.

(** Every iteration that goes on shortens [remainder], so the loop body runs
    at most [length binary + 1] times. *)
Definition DataObjectCollection_decode (self : DataObjectCollection)
    (binary : bytes) : ST (list pydict * bytes) :=
  DataObjectCollection_decode_loop (S (length binary)) self [] binary.

(** [d(k)], a dict applied with call syntax: a dict is not callable. *)
Definition call_dict (d : gmap string loc) (k : string) : result loc :=
  Raise TypeError.

(** [res.append(b)] on a bytearray with a bytes argument: [append] takes an
    int. *)
Definition bytearray_append (res : bytes) (b : bytes) : result bytes :=
  Raise TypeError.

(** The [for i in decoded] loop of [encode]. *)
Fixpoint DataObjectCollection_encode_loop (fuel : nat)
    (self : DataObjectCollection) (res : bytes)
    (decoded : list (string * pyval)) : ST bytes :=
  match decoded with
  | [] => mret res
  | i :: decoded' =>
      obj ← lift (call_dict (members_by_name self) (fst i));
      tlv ← DataObject_to_tlv fuel obj;
      res ← lift (bytearray_append res tlv);
      DataObjectCollection_encode_loop fuel self res decoded'
  end.

Definition DataObjectCollection_encode (fuel : nat)
    (self : DataObjectCollection) (decoded : list (string * pyval)) : ST bytes :=
  DataObjectCollection_encode_loop fuel self [] decoded.

(** ** DataObjectChoice, a subclass of DataObjectCollection *)

Definition DataObjectChoice_decode (self : DataObjectCollection)
    (binary : bytes) : ST (option pydict * bytes) :=
  tag ← lift (getitem binary 0);
  if tag =? 0xff then mret (None, binary)
  else match members_by_tag self !! Some tag with
       | None => raise ValueError
       | Some obj =>
           remainder ← DataObject_from_tlv obj binary;
           d ← DataObject_to_dict obj;
           mret (Some d, remainder)
       end.

Definition DataObjectChoice_encode (fuel : nat) (self : DataObjectCollection)
    (decoded : pydict) : ST bytes :=
  match decoded with
  | [] => raise IndexError                             (* list(decoded)[0] *)
  | (k, v) :: _ =>
      match members_by_name self !! k with
      | None => raise KeyError
      | Some obj =>
          _ ← set_decoded obj v;      (* obj.decoded = list(decoded.values())[0] *)
          DataObject_to_tlv fuel obj
      end
  end.

(** ** DataObjectSequence *)

Inductive seq_elem : Type :=
  | ElemDO (obj : loc)
  | ElemChoice (c : DataObjectCollection).

Record DataObjectSequence : Type := mkDataObjectSequence {
  seq_name : option string;
  seq_desc : option string;
  sequence : list seq_elem
}.

(** [e.decode(remainder)] *)
Definition elem_decode (e : seq_elem) (binary : bytes)
  : ST (option pydict * bytes) :=
  match e with
  | ElemDO obj => '(d, r) ← DataObject_decode obj binary; mret (Some d, r)
  | ElemChoice c => DataObjectChoice_decode c binary
  end.

(** [if r:] on None or a dict. *)
Definition dict_truthy (r : option pydict) : bool :=
  match r with
  | Some (_ :: _) => true
  | _ => false
  end.

Fixpoint DataObjectSequence_decode_loop (es : list seq_elem)
    (res : list pydict) (remainder : bytes) : ST (list pydict * bytes) :=
  match es with
  | [] => mret (res, remainder)
  | e :: es' =>
      '(r, remainder) ← elem_decode e remainder;
      let res := if dict_truthy r then res ++ [default [] r] else res in
      DataObjectSequence_decode_loop es' res remainder
  end.

Definition DataObjectSequence_decode (self : DataObjectSequence)
    (binary : bytes) : ST (list pydict * bytes) :=
  DataObjectSequence_decode_loop (sequence self) [] binary.

(** [e.encode(d)]: [DataObject.encode] takes no argument besides [self]. *)
Definition elem_encode (fuel : nat) (e : seq_elem) (d : pydict) : ST bytes :=
  match e with
  | ElemDO _ => raise TypeError
  | ElemChoice c => DataObjectChoice_encode fuel c d
  end.

Fixpoint DataObjectSequence_encode_loop (fuel : nat) (es : list seq_elem)
    (decoded : list pydict) (i : nat) (encoded : bytes) : ST bytes :=
  match es with
  | [] => mret encoded
  | e :: es' =>
      match decoded !! i with
      | None => raise IndexError
      | Some d =>
          b ← elem_encode fuel e d;
          DataObjectSequence_encode_loop fuel es' decoded (S i) (encoded ++ b)
      end
  end.

Definition DataObjectSequence_encode (fuel : nat) (self : DataObjectSequence)
    (decoded : list pydict) : ST bytes :=
  DataObjectSequence_encode_loop fuel (sequence self) decoded 0 [].

(** The [while len(remainder)] loop of [decode_multi]. *)
Fixpoint DataObjectSequence_decode_multi_loop (fuel : nat)
    (self : DataObjectSequence) (res : list (list pydict)) (remainder : bytes)
  : ST (list (list pydict) * bytes) :=
  match fuel with
  | O => lift OutOfFuel
  | S fuel' =>
      if (length remainder =? 0)%nat then mret (res, remainder)
      else
        '(r, remainder2) ← DataObjectSequence_decode self remainder;
        let res := match r with [] => res | _ :: _ => res ++ [r] end in
        if (length remainder2 <? length remainder)%nat
        then DataObjectSequence_decode_multi_loop fuel' self res remainder2
        else mret (res, remainder2)
  end.

(** The loop goes on only with a shorter [remainder]. *)
Definition DataObjectSequence_decode_multi (self : DataObjectSequence)
    (do : bytes) : ST (list (list pydict) * bytes) :=
  DataObjectSequence_decode_multi_loop (S (length do)) self [] do.

Fixpoint DataObjectSequence_encode_multi_loop (fuel : nat)
    (self : DataObjectSequence) (decoded : list (list pydict))
    (encoded : bytes) : ST bytes :=
  match decoded with
  | [] => mret encoded
  | d :: decoded' =>
      b ← DataObjectSequence_encode fuel self d;
      DataObjectSequence_encode_multi_loop fuel self decoded' (encoded ++ b)
  end.

Definition DataObjectSequence_encode_multi (fuel : nat)
    (self : DataObjectSequence) (decoded : list (list pydict)) : ST bytes :=
  DataObjectSequence_encode_multi_loop fuel self decoded [].

(** [DataObjectChoice] inherits [__init__]. *)
Definition DataObjectChoice_init := DataObjectCollection_init.

(** ** Vocabulary of the statements *)

(** Big-endian accumulation, [length <<= 8; length |= b] for each byte. *)
Definition be_combine (acc : Z) (bs : bytes) : Z :=
  foldl (fun a b => Z.lor (Z.shiftl a 8) (byte_val b)) acc bs.

(** The result is an exception. *)
Definition is_raise {A} (r : result A) : Prop := ∃ e, r = Raise e.

(** [o'] is [o] up to the [decoded] attribute. *)
Definition same_but_decoded (o o' : DataObject) : Prop :=
  do_name o' = do_name o ∧ do_desc o' = do_desc o ∧ do_tag o' = do_tag o ∧
  do_encoded o' = do_encoded o ∧ do_val o' = do_val o ∧
  do_class_of o' = do_class_of o.

(** No object of the store changed, except possibly for [decoded]. *)
Definition frame (h h' : store) : Prop := ∀ l, same_but_decoded (h l) (h' l).

(** A call that, from every store and whatever its outcome, writes at most
    the [decoded] attribute of objects. *)
Definition writes_decoded_only {A} (m : ST A) : Prop :=
  ∀ h, frame h (fst (m h)).

(** A call that writes nothing. *)
Definition read_only {A} (m : ST A) : Prop := ∀ h, fst (m h) = h.

(** The [from_bytes] of every subclass in the store returns. *)
Definition codecs_terminate (h : store) : Prop :=
  ∀ l fb tb b, do_class_of (h l) = Subclass fb tb → fb b ≠ OutOfFuel.

(** A small grammar: a TL0 object "a" with tag 0x30 at location 0, and at
    every other location an object "b" with tag 0x31 whose subclass keeps the
    value bytes as they are. *)
Definition raw_class : do_class :=
  Subclass (fun b => Ok (PyBytes b))
           (fun v => match v with PyBytes b => Ok b | _ => Raise TypeError end).

Definition example_store : store := fun l =>
  match l with
  | O => DataObject_init "a" None (Some 0x30) (PyInt 1) TL0_DataObject
  | S _ => DataObject_init "b" None (Some 0x31) PyNone raw_class
  end.

Definition example_choice : DataObjectCollection :=
  mkDataObjectCollection None None [0%nat; 1%nat]
    (<[Some 0x30 := 0%nat]> (<[Some 0x31 := 1%nat]> ∅))
    (<["a"%string := 0%nat]> (<["b"%string := 1%nat]> ∅)).

(** ** Assignments to [decoded]

    What a call on a grammar node leaves behind in the objects: the
    assignments [obj.decoded = v], in the order in which they were made. *)
Definition assign_all (ws : list (loc * pyval)) (h : store) : store :=
  foldl (fun h w => <[w.1 := with_decoded (h w.1) w.2]> h) h ws.

(** [{obj.name: v}], what [obj.to_dict()] returns after [obj.decoded = v]. *)
Definition dict_of (h : store) (w : loc * pyval) : pydict :=
  [(do_name (h w.1), w.2)].

(** The objects a decode of the sequence can reach: its own DataObject
    elements and the members that its choices index by tag. *)
Definition decode_leaf (self : DataObjectSequence) (l : loc) : Prop :=
  ElemDO l ∈ sequence self ∨
  ∃ c t, ElemChoice c ∈ sequence self ∧ members_by_tag c !! Some t = Some l.

(** [w] assigns, to a member that a choice of the sequence indexes by name,
    the value that one of the dicts [ds] gives first, under that name. *)
Definition encode_assign (self : DataObjectSequence) (ds : list pydict)
    (w : loc * pyval) : Prop :=
  ∃ c d k, ElemChoice c ∈ sequence self ∧ d ∈ ds ∧ head d = Some (k, w.2) ∧
           members_by_name c !! k = Some w.1.

(** ** The other tag and length codecs *)

(** The [while not last] loop of [bertlv_parse_tag_raw]; [rest] is
    [binary[i:]]. *)
Fixpoint bertlv_parse_tag_raw_loop (tag : Z) (rest : bytes) : result (Z * bytes) :=
  match rest with
  | [] => Raise IndexError
  | b :: rest' =>
      let last := negb (truthy (Z.land (byte_val b) 0x80)) in
      let tag := Z.shiftl tag 8 in
      let tag := Z.lor tag (byte_val b) in
      if last then Ok (tag, rest') else bertlv_parse_tag_raw_loop tag rest'
  end.

Definition bertlv_parse_tag_raw (binary : bytes) : result (option Z * bytes) :=
  b0 ← getitem binary 0;
  (* check for FF padding at the end, as customary in SIM card files *)
  if (b0 =? 0xff) && (length binary =? 1)%nat then Ok (None, binary)
  else
    ff_ff ← (if b0 =? 0xff then b1 ← getitem binary 1; Ok (b1 =? 0xff)
             else Ok false);
    if ff_ff : bool then Ok (None, binary)
    else
      let tag := Z.land b0 0x1f in
      if tag <=? 30 then Ok (Some b0, drop 1 binary)
      else
        (* multi-byte tag *)
        '(tag, rest) ← bertlv_parse_tag_raw_loop b0 (drop 1 binary);
        Ok (Some tag, rest).

Definition bertlv_parse_one (binary : bytes)
  : result (BerTag * Z * bytes * bytes) :=
  '(tagdict, remainder) ← bertlv_parse_tag binary;
  '(length, remainder) ← bertlv_parse_len remainder;
  let value := take (Z.to_nat length) remainder in
  let remainder := drop (Z.to_nat length) remainder in
  Ok (tagdict, length, value, remainder).

(** The argument of [comprehensiontlv_encode_tag]: an int or a dict. *)
Inductive compr_tag_arg : Set :=
  | ComprInt (tag : Z)
  | ComprDict (tag : ComprTag).

Definition comprehensiontlv_encode_tag (tag : compr_tag_arg) : result bytes :=
  (* permit caller to specify tag also as integer value *)
  let tag := match tag with
             | ComprInt tag =>
                 let compr := (tag <? 0xff) && truthy (Z.land tag 0x80) in
                 mkComprTag compr tag
             | ComprDict tag => tag
             end in
  let compr := comprehension tag in
  if bool_decide (compr_tag tag ∈ [0x00; 0x80; 0xff]) || (0xff <? compr_tag tag)
  then
    (* 3-byte format *)
    let byte3 := Z.land (compr_tag tag) 0xff in
    let byte2 := Z.land (Z.shiftr (compr_tag tag) 8) 0x7f in
    let byte2 := if compr then Z.lor byte2 0x80 else byte2 in
    b2 ← int_to_bytes byte2 1;
    b3 ← int_to_bytes byte3 1;
    Ok (x7f :: b2 ++ b3)
  else
    (* 1-byte format *)
    let ret := compr_tag tag in
    let ret := if compr then Z.lor ret 0x80 else ret in
    int_to_bytes ret 1.

Definition comprehensiontlv_parse_one (binary : bytes)
  : result (ComprTag * Z * bytes * bytes) :=
  '(tagdict, remainder) ← comprehensiontlv_parse_tag binary;
  '(length, remainder) ← bertlv_parse_len remainder;
  let value := take (Z.to_nat length) remainder in
  let remainder := drop (Z.to_nat length) remainder in
  Ok (tagdict, length, value, remainder).

(** [int.from_bytes(b, 'big')] *)
Definition int_from_bytes (b : bytes) : Z := be_combine 0 b.

Definition dgi_parse_tag_raw (binary : bytes) : Z * bytes :=
  (int_from_bytes (take 2 binary), drop 2 binary).

Definition dgi_encode_tag (t : Z) : result bytes := int_to_bytes t 2.

Definition dgi_encode_len (length : Z) : result bytes :=
  if length <? 255 then int_to_bytes length 1
  else if length <=? 0xffff then b ← int_to_bytes length 2; Ok (xff :: b)
  else Raise ValueError.

(** The outcome of a function that carries an [assert]: the assertion fails
    (AssertionError), or the function goes on to its result. *)
Inductive asserting (A : Type) : Type :=
  | AssertionError
  | Asserted (r : result A).
Arguments AssertionError {A}.
Arguments Asserted {A} r.

Definition dgi_parse_len (binary : bytes) : asserting (Z * bytes) :=
  match getitem binary 0 with
  | Ok b0 =>
      if b0 =? 255 then
        if (3 <=? length binary)%nat then
          Asserted (b1 ← getitem binary 1;
                    b2 ← getitem binary 2;
                    Ok (Z.lor (Z.shiftl b1 8) b2, drop 3 binary))
        else AssertionError
      else Asserted (Ok (b0, drop 1 binary))
  | Raise e => Asserted (Raise e)
  | OutOfFuel => Asserted OutOfFuel
  end.

(** ** Strings of hex nibbles

    A str that the code takes apart character by character is a list of
    characters; a character is a code point below 256. *)

Abbreviation str := (list ascii).

(** [s[0::2]] *)
Fixpoint every_other {A} (s : list A) : list A :=
  match s with
  | [] => []
  | x :: r => x :: match r with
                   | [] => []
                   | _ :: r' => every_other r'
                   end
  end.

(** [c * n] for a str [c] and an int [n]: the empty str when [n <= 0]. *)
Definition str_mul (c : str) (n : Z) : str :=
  concat (replicate (Z.to_nat n) c).

(** [s.lstrip(chars)], [s.rstrip(chars)] and [s.strip(chars)] *)
Fixpoint lstrip (chars s : str) : str :=
  match s with
  | [] => []
  | x :: r => if bool_decide (x ∈ chars) then lstrip chars r else s
  end.
Definition rstrip (chars s : str) : str := reverse (lstrip chars (reverse s)).
Definition strip (chars s : str) : str := rstrip chars (lstrip chars s).

Definition swap_nibbles (s : str) : str :=
  concat (zip_with (fun x y => [x; y]) (every_other (drop 1 s)) (every_other s)).

Definition rpad (s : str) (l : Z) (c : str) : str :=
  s ++ str_mul c (l - Z.of_nat (length s)).

Definition lpad (s : str) (l : Z) (c : str) : str :=
  str_mul c (l - Z.of_nat (length s)) ++ s.

Definition half_round_up (n : Z) : Z := (n + 1) / 2.

Definition dec_iccid (ef : str) : str := strip ["f"%char] (swap_nibbles ef).

Definition enc_iccid (iccid : str) : str :=
  swap_nibbles (rpad iccid 20 ["f"%char]).

(** ** Card commands *)

(** [c.lower()] for a character below 256: the letters A-Z and the Latin-1
    capitals U+00C0..U+00DE, the sign U+00D7 apart, move up by 32. *)
Definition chr_lower (c : ascii) : ascii :=
  let n := nat_of_ascii c in
  if ((65 <=? n) && (n <=? 90)
      || (192 <=? n) && (n <=? 222) && negb (n =? 215))%nat
  then ascii_of_nat (n + 32) else c.

Definition str_lower (s : str) : str := chr_lower <$> s.

(** [s[i]] on a str: IndexError past the end. *)
Definition str_getitem (s : str) (i : nat) : result ascii :=
  match s !! i with
  | Some c => Ok c
  | None => Raise IndexError
  end.

(** ['%02u' % z] for an int: decimal digits, a zero in front of a single
    digit, a minus sign in front of a negative number. *)
Definition fmt_02u (z : Z) : str :=
  let digits := String.list_ascii_of_string
                  (DecimalString.NilZero.string_of_uint (N.to_uint (Z.to_N (Z.abs z)))) in
  if z <? 0 then "-"%char :: digits
  else if z <? 10 then "0"%char :: digits
  else digits.

Record CardCommand : Set := mkCardCommand {
  cmd_name : string;
  cmd_ins : Z;
  cmd_cla_list : list str;
  cmd_desc : option string
}.

(** [__init__(self, name, ins, cla_list=None, desc=None)] *)
Definition CardCommand_init (name : string) (ins : Z)
    (cla_list : option (list str)) (desc : option string) : CardCommand :=
  let cla_list := default [] cla_list in
  mkCardCommand name ins (str_lower <$> cla_list) desc.

(** The [cla] argument of [match_cla] and [lookup]: a str, an int, or None. *)
Inductive cla_arg : Set :=
  | ClaStr (s : str)
  | ClaInt (z : Z)
  | ClaNone.

(** One turn of [for i in range(0, 2)]. *)
Definition cla_masked_char (cla_match cla : str) (i : nat) : result ascii :=
  m ← str_getitem cla_match i;
  if bool_decide (m = "x"%char) then Ok "x"%char else str_getitem cla i.

Fixpoint match_cla_loop (cla_list : list str) (cla : str) : result bool :=
  match cla_list with
  | [] => Ok false
  | cla_match :: cla_list' =>
      c0 ← cla_masked_char cla_match cla 0;
      c1 ← cla_masked_char cla_match cla 1;
      if bool_decide ([c0; c1] = cla_match) then Ok true
      else match_cla_loop cla_list' cla
  end.

Definition CardCommand_match_cla (self : CardCommand) (cla : cla_arg)
  : result bool :=
  cla ← match cla with
        | ClaStr s => Ok s
        | ClaInt z => Ok (fmt_02u z)
        | ClaNone => Raise TypeError          (* '%02u' % None *)
        end;
  let cla := str_lower cla in
  match_cla_loop (cmd_cla_list self) cla.

(** A CardCommandSet is changed in place by [+]; its state is the dict
    [cmds]. *)
Record CardCommandSet : Set := mkCardCommandSet {
  set_name : string;
  cmds : gmap Z CardCommand
}.

Definition CardCommandSet_init (name : string) (cmds : list CardCommand)
  : CardCommandSet :=
  mkCardCommandSet name (foldl (fun d c => <[cmd_ins c := c]> d) ∅ cmds).

Definition CardCommandSet_getitem (self : CardCommandSet) (idx : Z)
  : result CardCommand :=
  match cmds self !! idx with
  | Some c => Ok c
  | None => Raise KeyError
  end.

(** The right operand of [+]. *)
Inductive add_arg : Set :=
  | AddCommand (c : CardCommand)
  | AddSet (s : CardCommandSet)
  | AddOther.

(** [self + other]: the set after the call, and what the call gives: None
    (there is no return statement) or an exception. *)
Definition CardCommandSet_add (self : CardCommandSet) (other : add_arg)
  : CardCommandSet * result () :=
  match other with
  | AddCommand other =>
      if bool_decide (is_Some (cmds self !! cmd_ins other))
      then (self, Raise ValueError)
      else (mkCardCommandSet (set_name self)
              (<[cmd_ins other := other]> (cmds self)), Ok ())
  | AddSet other =>
      (mkCardCommandSet (set_name self)
         (foldl (fun d c => match cmds other !! c with
                            | Some cmd => <[c := cmd]> d
                            | None => d
                            end)
                (cmds self) (elements (dom (cmds other)))), Ok ())
  | AddOther => (self, Raise ValueError)
  end.

(** Truth value of the [cla] argument. *)
Definition cla_truthy (cla : cla_arg) : bool :=
  match cla with
  | ClaStr s => negb (bool_decide (s = []))
  | ClaInt z => truthy z
  | ClaNone => false
  end.

Definition CardCommandSet_lookup (self : CardCommandSet) (ins : Z)
    (cla : cla_arg) : result (option CardCommand) :=
  match cmds self !! ins with
  | None => Ok None
  | Some cmd =>
      if cla_truthy cla then
        m ← CardCommand_match_cla cmd cla;
        if negb m then Ok None else Ok (Some cmd)
      else Ok (Some cmd)
  end.

(** * Properties *)

(** ** Bytes as integers *)

Lemma byte_val_range (b : byte) : 0 <= byte_val b < 256.
Proof.
  unfold byte_val. pose proof (Byte.to_N_bounded b). lia.
Qed.

Lemma byte_val_low_byte (z : Z) : byte_val (low_byte z) = z mod 256.
Proof.
  unfold low_byte, byte_val.
  assert (Hr : 0 <= z mod 256 < 256) by (apply Z.mod_pos_bound; lia).
  destruct (Byte.of_N (Z.to_N (z mod 256))) as [b|] eqn:E.
  - apply Byte.to_of_N in E. simpl. rewrite E. lia.
  - apply Byte.of_N_None_iff in E. lia.
Qed.

Lemma bytes_of_int_low_byte (t : Z) :
  0 <= t < 256 → bytes_of_int t = Ok [low_byte t].
Proof.
  intros Ht. unfold bytes_of_int, low_byte.
  destruct (Z.ltb_spec t 0); [lia|].
  rewrite Z.mod_small by lia.
  destruct (Byte.of_N (Z.to_N t)) as [b|] eqn:E; [done|].
  apply Byte.of_N_None_iff in E. lia.
Qed.

Lemma length_be_bytes (k : nat) (n : Z) : length (be_bytes k n) = k.
Proof. induction k; simpl; congruence. Qed.

Lemma lor_shiftl_8 (a b : Z) :
  0 <= b < 256 → Z.lor (Z.shiftl a 8) b = a * 256 + b.
Proof.
  intros Hb. rewrite Z.shiftl_mul_pow2 by lia. change (2 ^ 8) with 256.
  assert (Hland : Z.land (a * 256) b = 0).
  { apply Z.bits_inj'. intros i Hi. rewrite Z.land_spec, Z.bits_0.
    destruct (Z.lt_ge_cases i 8) as [Hlt|Hge].
    - change 256 with (2 ^ 8). rewrite Z.mul_pow2_bits_low by lia. done.
    - rewrite <- (Z.mod_small b (2 ^ 8)) by (change (2 ^ 8) with 256; lia).
      rewrite Z.mod_pow2_bits_high by lia. apply andb_false_r. }
  rewrite <- Z.lxor_lor by exact Hland.
  symmetry. apply Z.add_nocarry_lxor. exact Hland.
Qed.

Lemma be_combine_be_bytes (k : nat) (n acc : Z) :
  0 <= n →
  be_combine acc (be_bytes k n) = acc * 256 ^ Z.of_nat k + n mod 256 ^ Z.of_nat k.
Proof.
  intros Hn. revert acc. induction k as [|k IH]; intros acc.
  - simpl. rewrite Z.mod_1_r. lia.
  - cbn [be_bytes be_combine foldl]. fold (be_combine
      (Z.lor (Z.shiftl acc 8) (byte_val (low_byte (Z.shiftr n (8 * Z.of_nat k)))))
      (be_bytes k n)).
    rewrite IH, byte_val_low_byte.
    rewrite lor_shiftl_8 by (apply Z.mod_pos_bound; lia).
    rewrite Z.shiftr_div_pow2 by lia.
    replace (2 ^ (8 * Z.of_nat k)) with (256 ^ Z.of_nat k)
      by (change 256 with (2 ^ 8); rewrite <- Z.pow_mul_r by lia; done).
    rewrite Nat2Z.inj_succ, Z.pow_succ_r by lia.
    assert (Hp : 0 < 256 ^ Z.of_nat k) by (apply Z.pow_pos_nonneg; lia).
    rewrite (Z.mul_comm 256 (256 ^ Z.of_nat k)).
    rewrite (Z.rem_mul_r n (256 ^ Z.of_nat k) 256) by lia.
    lia.
Qed.

(** ** The BER-TLV length parser, case by case *)

Lemma getitem_cons_0 (b : byte) (rest : bytes) :
  getitem (b :: rest) 0 = Ok (byte_val b).
Proof. reflexivity. Qed.

Lemma bertlv_parse_len_fold (binary : bytes) (num start : nat) (acc : Z) :
  (start + num ≤ length binary)%nat →
  foldl (fun acc i =>
           length ← acc;
           let length := Z.shiftl length 8 in
           bi ← getitem binary i;
           Ok (Z.lor length bi))
        (Ok acc) (seq start num)
  = Ok (be_combine acc (take num (drop start binary))).
Proof.
  revert start acc. induction num as [|num IH]; intros start acc Hlen.
  - reflexivity.
  - destruct (lookup_lt_is_Some_2 binary start) as [b Hb]; [lia|].
    rewrite (drop_S _ _ _ Hb). cbn [seq foldl firstn take be_combine].
    unfold getitem at 2. rewrite Hb. cbn [mbind result_bind].
    rewrite IH by lia. reflexivity.
Qed.

Lemma bertlv_parse_len_short (b0 : byte) (rest : bytes) :
  byte_val b0 < 0x80 →
  bertlv_parse_len (b0 :: rest) = Ok (byte_val b0, rest).
Proof.
  intros Hb. unfold bertlv_parse_len. rewrite getitem_cons_0.
  cbn [mbind result_bind]. destruct (Z.ltb_spec (byte_val b0) 0x80); [|lia].
  reflexivity.
Qed.

Lemma bertlv_parse_len_long (b0 : byte) (rest : bytes) :
  0x80 <= byte_val b0 →
  (Z.to_nat (Z.land (byte_val b0) 0x7f) ≤ length rest)%nat →
  bertlv_parse_len (b0 :: rest)
  = Ok (be_combine 0 (take (Z.to_nat (Z.land (byte_val b0) 0x7f)) rest),
        drop (Z.to_nat (Z.land (byte_val b0) 0x7f)) rest).
Proof.
  intros Hb Hlen. unfold bertlv_parse_len. rewrite getitem_cons_0.
  cbn [mbind result_bind]. destruct (Z.ltb_spec (byte_val b0) 0x80); [lia|].
  set (num := Z.to_nat (Z.land (byte_val b0) 0x7f)) in *.
  destruct (Nat.ltb_spec (length (b0 :: rest)) (num + 1)) as [Hlt|_].
  { simpl in Hlt. lia. }
  rewrite bertlv_parse_len_fold by (simpl; lia).
  reflexivity.
Qed.

(** ** COMPREHENSION-TLV tags *)

(** C5: on every input whose first byte is 0xFF, with anything or nothing
    after it, [comprehensiontlv_parse_tag_raw] raises ValueError: the guard on
    the reserved values 0x00, 0x80 and 0xFF comes first, so the later
    [elif binary[0] == 0xff: return None, binary] is never reached. *)
Theorem comprehensiontlv_parse_tag_raw_ff_raises (rest : bytes) :
  comprehensiontlv_parse_tag_raw (xff :: rest) = Raise ValueError.
Proof. reflexivity. Qed.

(** No input at all makes the raw parser return "no tag" (None). *)
Lemma comprehensiontlv_parse_tag_raw_never_none (binary rem : bytes) :
  comprehensiontlv_parse_tag_raw binary ≠ Ok (None, rem).
Proof.
  unfold comprehensiontlv_parse_tag_raw.
  destruct (getitem binary 0) as [b0| |]; cbn [mbind result_bind]; [|done..].
  case_bool_decide as Hin; [done|].
  destruct (Z.eqb_spec b0 0x7f).
  - destruct (getitem binary 1); cbn [mbind result_bind]; [|done..].
    destruct (getitem binary 2); cbn [mbind result_bind]; done.
  - destruct (Z.eqb_spec b0 0xff) as [->|]; [|done].
    exfalso. apply Hin. set_solver.
Qed.

(** C9: [comprehensiontlv_parse_tag] raises ValueError on every buffer whose
    first byte is 0x00, 0x80 or 0xFF, and decodes a buffer whose first byte is
    0x01 to comprehension = False, tag = 1, consuming that one byte. *)
Theorem comprehensiontlv_parse_tag_reserved (rest : bytes) :
  comprehensiontlv_parse_tag (x00 :: rest) = Raise ValueError ∧
  comprehensiontlv_parse_tag (x80 :: rest) = Raise ValueError ∧
  comprehensiontlv_parse_tag (xff :: rest) = Raise ValueError ∧
  comprehensiontlv_parse_tag (x01 :: rest) = Ok (mkComprTag false 1, rest).
Proof. repeat split; reflexivity. Qed.

(** ** BER-TLV lengths *)

(** C8, as stated, fails: on 0x82 0x01 (two length octets announced, one
    present) the parser returns the pair (0, b''), which is also what it
    returns for the well-formed length field 0x00. *)
Lemma bertlv_parse_len_truncated_returns_pair :
  bertlv_parse_len [x82; x01] = Ok (0, []) ∧
  ¬ is_raise (bertlv_parse_len [x82; x01]) ∧
  bertlv_parse_len [x82; x01] = bertlv_parse_len [x00].
Proof.
  split; [reflexivity|]. split; [|reflexivity].
  intros [e He]. discriminate He.
Qed.

(** C8, amended: when the first byte announces more length octets than there
    are bytes after it, [bertlv_parse_len] reads nothing past the end and
    returns the pair (0, b''). *)
Theorem bertlv_parse_len_truncated (b0 : byte) (rest : bytes) :
  0x80 <= byte_val b0 →
  (length rest < Z.to_nat (Z.land (byte_val b0) 0x7f))%nat →
  bertlv_parse_len (b0 :: rest) = Ok (0, []).
Proof.
  intros Hb Hlen. unfold bertlv_parse_len. rewrite getitem_cons_0.
  cbn [mbind result_bind]. destruct (Z.ltb_spec (byte_val b0) 0x80); [lia|].
  destruct (Nat.ltb_spec (length (b0 :: rest))
              (Z.to_nat (Z.land (byte_val b0) 0x7f) + 1)) as [_|Hge];
    [reflexivity|].
  simpl in Hge. lia.
Qed.

Lemma bertlv_parse_len_truncated_witness :
  bertlv_parse_len [x82; x01] = Ok (0, []).
Proof.
  apply (bertlv_parse_len_truncated x82 [x01]).
  - vm_compute. discriminate.
  - vm_compute. lia.
Defined.

Lemma bertlv_parse_len_be_bytes (b0 : byte) (k : nat) (n : Z) :
  0x80 <= byte_val b0 →
  Z.to_nat (Z.land (byte_val b0) 0x7f) = k →
  0 <= n < 256 ^ Z.of_nat k →
  bertlv_parse_len (b0 :: be_bytes k n) = Ok (n, []).
Proof.
  intros Hb Hk Hn.
  rewrite bertlv_parse_len_long by (rewrite ?length_be_bytes; lia).
  rewrite Hk, take_ge, drop_ge by (rewrite length_be_bytes; lia).
  rewrite be_combine_be_bytes, Z.mod_small by lia. reflexivity.
Qed.

(** C6: for every [0 <= n <= 0xFFFFFFFF], parsing the encoding of [n] gives
    back [n] and an empty remainder; for every [n >= 0x100000000] the encoder
    raises ValueError. *)
Theorem bertlv_len_roundtrip (n : Z) :
  0 <= n →
  (n <= 0xffffffff →
   (b ← bertlv_encode_len n; bertlv_parse_len b) = Ok (n, [])) ∧
  (0x100000000 <= n → bertlv_encode_len n = Raise ValueError).
Proof.
  intros Hn. unfold bertlv_encode_len, int_to_bytes.
  destruct (Z.ltb_spec n 0) as [?|_]; [lia|].
  destruct (Z.ltb_spec n 0x80) as [H1|H1].
  { split; [intros _|lia].
    destruct (Z.leb_spec (256 ^ Z.of_nat 1) n) as [H|_]; [simpl in H; lia|].
    cbn [mbind result_bind be_bytes].
    rewrite bertlv_parse_len_short; rewrite byte_val_low_byte;
      rewrite Z.shiftr_0_r, Z.mod_small by lia; [done|lia]. }
  destruct (Z.leb_spec n 0xff) as [H2|H2].
  { split; [intros _|lia].
    destruct (Z.leb_spec (256 ^ Z.of_nat 1) n) as [H|_]; [simpl in H; lia|].
    cbn [mbind result_bind].
    apply bertlv_parse_len_be_bytes; [done|done|simpl; lia]. }
  destruct (Z.leb_spec n 0xffff) as [H3|H3].
  { split; [intros _|lia].
    destruct (Z.leb_spec (256 ^ Z.of_nat 2) n) as [H|_]; [simpl in H; lia|].
    cbn [mbind result_bind].
    apply bertlv_parse_len_be_bytes; [done|done|simpl; lia]. }
  destruct (Z.leb_spec n 0xffffff) as [H4|H4].
  { split; [intros _|lia].
    destruct (Z.leb_spec (256 ^ Z.of_nat 3) n) as [H|_]; [simpl in H; lia|].
    cbn [mbind result_bind].
    apply bertlv_parse_len_be_bytes; [done|done|simpl; lia]. }
  destruct (Z.leb_spec n 0xffffffff) as [H5|H5].
  { split; [intros _|lia].
    destruct (Z.leb_spec (256 ^ Z.of_nat 4) n) as [H|_]; [simpl in H; lia|].
    cbn [mbind result_bind].
    apply bertlv_parse_len_be_bytes; [done|done|simpl; lia]. }
  split; [lia|done].
Qed.

Lemma bertlv_len_roundtrip_witness :
  (b ← bertlv_encode_len 65536; bertlv_parse_len b) = Ok (65536, []) ∧
  bertlv_encode_len 0x100000000 = Raise ValueError.
Proof.
  split.
  - apply (bertlv_len_roundtrip 65536); lia.
  - apply (bertlv_len_roundtrip 0x100000000); lia.
Defined.

(** The form boundaries named in the specification. *)
Example bertlv_len_boundaries :
  Forall (fun n => (b ← bertlv_encode_len n; bertlv_parse_len b) = Ok (n, []))
         [0; 127; 128; 255; 256; 65535; 65536; 0xffffffff].
Proof. repeat constructor. Qed.

(** ** BER-TLV tags *)

(** When [get_top7_bits] gives back its own input as the "remaining" bits, the
    encoder loop never leaves: it appends one more continuation byte at every
    turn. *)
Lemma bertlv_encode_tag_loop_stuck (t remain : Z) :
  get_top7_bits remain = (t, remain) →
  remain ≠ 0 → 0 <= t < 128 →
  ∀ (fuel : nat) (tag_bytes : bytes),
    bertlv_encode_tag_loop fuel tag_bytes remain = OutOfFuel.
Proof.
  intros Hfix Hne Ht. induction fuel as [|fuel IH]; intros tag_bytes.
  - reflexivity.
  - cbn [bertlv_encode_tag_loop]. rewrite Hfix.
    assert (Htr : truthy remain = true).
    { unfold truthy. destruct (Z.eqb_spec remain 0); [contradiction|done]. }
    rewrite Htr.
    assert (Hr : 0 <= Z.lor t 0x80 < 256).
    { assert (Hl : Z.lor t 0x80 = t + 128).
      { rewrite Z.lor_comm. change 0x80 with (Z.shiftl 1 7).
        rewrite Z.shiftl_mul_pow2 by lia. change (2 ^ 7) with 128.
        assert (Hland : Z.land (1 * 128) t = 0).
        { apply Z.bits_inj'. intros i Hi. rewrite Z.land_spec, Z.bits_0.
          destruct (Z.lt_ge_cases i 7).
          - change 128 with (2 ^ 7). rewrite Z.mul_pow2_bits_low by lia. done.
          - rewrite <- (Z.mod_small t (2 ^ 7)) by (change (2 ^ 7) with 128; lia).
            rewrite Z.mod_pow2_bits_high by lia. apply andb_false_r. }
        rewrite <- Z.lxor_lor by exact Hland.
        rewrite <- Z.add_nocarry_lxor by exact Hland. lia. }
      lia. }
    rewrite (bytes_of_int_low_byte _ Hr). cbn [mbind result_bind negb].
    apply IH.
Qed.

(** C1 fails on the code: for the tag number 128 (class 0, primitive) the
    encoder does not terminate.  [get_top7_bits 128] returns (64, 128): the
    "remaining LSBs" are computed as [inp & ~(inp << shift)], which keeps the
    top bit of 128, so [remain] never becomes 0. *)
Theorem bertlv_encode_tag_128_diverges (fuel : nat) :
  bertlv_encode_tag fuel (TagDict (mkBerTag 0 false 128)) = OutOfFuel.
Proof.
  cbn [bertlv_encode_tag]. unfold bertlv_encode_tag_dict.
  cbn [tag constructed cls]. change (128 <=? 30) with false. cbv iota.
  change (bytes_of_int _) with (Ok [x1f]). cbn [mbind result_bind].
  apply (bertlv_encode_tag_loop_stuck 64 128); [reflexivity|lia|lia].
Qed.

(** Where the loop does end it can end on the wrong bytes: the number 192 is
    encoded as 1F E0 40, which parses back as 12352. *)
Example bertlv_encode_tag_192 :
  bertlv_encode_tag 3 (TagDict (mkBerTag 0 false 192)) = Ok [x1f; xe0; x40] ∧
  bertlv_parse_tag [x1f; xe0; x40] = Ok (mkBerTag 0 false 12352, []).
Proof. split; reflexivity. Qed.

(** The escape form is chosen exactly for the numbers above 30: up to 30 the
    encoder returns a single byte, above 30 it returns, when it returns, the
    leading byte followed by at least one more. *)
Lemma bytes_of_int_inv (t : Z) (b : bytes) :
  bytes_of_int t = Ok b → ∃ b0, b = [b0].
Proof.
  unfold bytes_of_int. destruct (t <? 0); [discriminate|].
  destruct (Byte.of_N (Z.to_N t)) as [b0|]; [|discriminate].
  intros [= <-]. by exists b0.
Qed.

Lemma bertlv_encode_tag_loop_extends (fuel : nat) (tag_bytes : bytes)
    (remain : Z) (bs : bytes) :
  bertlv_encode_tag_loop fuel tag_bytes remain = Ok bs →
  ∃ more, bs = tag_bytes ++ more ∧ more ≠ [].
Proof.
  revert tag_bytes remain. induction fuel as [|fuel IH];
    intros tag_bytes remain; cbn [bertlv_encode_tag_loop]; [discriminate|].
  destruct (get_top7_bits remain) as [t remain'].
  destruct (bytes_of_int _) as [b| |] eqn:Hb; cbn [mbind result_bind];
    [|discriminate..].
  apply bytes_of_int_inv in Hb as [b0 ->].
  destruct (negb (truthy remain')).
  - intros [= <-]. by exists [b0].
  - intros Hloop. apply IH in Hloop as (more & -> & _).
    exists (b0 :: more). by rewrite <- app_assoc.
Qed.

Lemma bertlv_encode_tag_escape_form (fuel : nat) (t : BerTag) (bs : bytes) :
  bertlv_encode_tag fuel (TagDict t) = Ok bs →
  if tag t <=? 30 then length bs = 1%nat else (2 ≤ length bs)%nat.
Proof.
  cbn [bertlv_encode_tag]. unfold bertlv_encode_tag_dict.
  destruct (tag t <=? 30).
  - intros Hb. by apply bytes_of_int_inv in Hb as [b0 ->].
  - destruct (bytes_of_int _) as [b| |] eqn:Hb; cbn [mbind result_bind];
      [|discriminate..].
    apply bytes_of_int_inv in Hb as [b0 ->].
    intros Hloop. apply bertlv_encode_tag_loop_extends in Hloop as (more & -> & Hne).
    destruct more; [done|]. simpl. lia.
Qed.

(** Up to 127 the number fits one 7-bit group, taken whole by
    [get_top7_bits], and the round trip holds with any fuel for the single
    turn of the loop. *)
Lemma bertlv_tag_roundtrip_small (fuel : nat) (c : Z) (constr : bool) (number : Z) :
  0 <= c <= 3 → 0 <= number <= 127 →
  (b ← bertlv_encode_tag (S fuel) (TagDict (mkBerTag c constr number));
   bertlv_parse_tag b) = Ok (mkBerTag c constr number, []).
Proof.
  intros Hc Hn.
  assert (Hc' : ∃ k : nat, c = Z.of_nat k ∧ (k < 4)%nat)
    by (exists (Z.to_nat c); lia).
  assert (Hn' : ∃ k : nat, number = Z.of_nat k ∧ (k < 128)%nat)
    by (exists (Z.to_nat number); lia).
  destruct Hc' as (kc & -> & Hkc). destruct Hn' as (kn & -> & Hkn).
  clear Hc Hn.
  destruct kc as [|[|[|[|kc]]]]; [| | | |lia]; clear Hkc;
    destruct constr;
    (do 128 (destruct kn as [|kn]; [reflexivity|]); lia).
Qed.

Lemma bertlv_tag_roundtrip_small_witness :
  (b ← bertlv_encode_tag 1 (TagDict (mkBerTag 2 true 31)); bertlv_parse_tag b)
  = Ok (mkBerTag 2 true 31, []).
Proof. apply (bertlv_tag_roundtrip_small 0 2 true 31); lia. Defined.

(** ** Data objects: what a call writes *)

Lemma same_but_decoded_refl (o : DataObject) : same_but_decoded o o.
Proof. by repeat split. Qed.

Lemma same_but_decoded_trans (o1 o2 o3 : DataObject) :
  same_but_decoded o1 o2 → same_but_decoded o2 o3 → same_but_decoded o1 o3.
Proof.
  intros (?&?&?&?&?&?) (?&?&?&?&?&?). repeat split; congruence.
Qed.

Lemma frame_refl (h : store) : frame h h.
Proof. intros l. apply same_but_decoded_refl. Qed.

Lemma frame_trans (h1 h2 h3 : store) : frame h1 h2 → frame h2 h3 → frame h1 h3.
Proof. intros H12 H23 l. eapply same_but_decoded_trans; eauto. Qed.

Section WritesDecodedOnly.
Context {A B : Type}.

Lemma wdo_ret (a : A) : writes_decoded_only (mret a : ST A).
Proof. intros h. apply frame_refl. Qed.

Lemma wdo_lift (r : result A) : writes_decoded_only (lift r).
Proof. intros h. apply frame_refl. Qed.

Lemma wdo_raise (e : exn) : writes_decoded_only (raise e : ST A).
Proof. intros h. apply frame_refl. Qed.

Lemma wdo_bind (m : ST A) (f : A → ST B) :
  writes_decoded_only m → (∀ a, writes_decoded_only (f a)) →
  writes_decoded_only (m ≫= f).
Proof.
  intros Hm Hf h. unfold mbind, ST_bind. specialize (Hm h).
  destruct (m h) as [h' [a| |]]; simpl in *; [|done..].
  eapply frame_trans; [exact Hm|apply Hf].
Qed.

Lemma read_only_wdo (m : ST A) : read_only m → writes_decoded_only m.
Proof. intros Hm h. rewrite Hm. apply frame_refl. Qed.

End WritesDecodedOnly.

Lemma wdo_get_obj (l : loc) : writes_decoded_only (get_obj l).
Proof. intros h. apply frame_refl. Qed.

Lemma wdo_set_decoded (l : loc) (v : pyval) : writes_decoded_only (set_decoded l v).
Proof.
  intros h l'. unfold set_decoded. cbn [fst].
  unfold insert, fn_insert. destruct (decide (l = l')) as [->|Hne].
  - by repeat split.
  - apply same_but_decoded_refl.
Qed.

Create HintDb wdo discriminated.
#[local] Hint Resolve wdo_ret wdo_lift wdo_raise wdo_get_obj wdo_set_decoded : wdo.

(** Walk down a method body: one bind at a time, splitting on the tests. *)
Ltac wdo_step :=
  match goal with
  | |- writes_decoded_only (_ ≫= _) => apply wdo_bind; [|intros ?]
  | |- writes_decoded_only (if ?c then _ else _) => destruct c
  | |- writes_decoded_only (match ?x with _ => _ end) => destruct x
  | |- writes_decoded_only _ => solve [auto with wdo]
  end.

Lemma wdo_from_bytes (self : loc) (do : bytes) :
  writes_decoded_only (DataObject_from_bytes self do).
Proof. unfold DataObject_from_bytes. repeat wdo_step. Qed.

Lemma wdo_to_dict (self : loc) : writes_decoded_only (DataObject_to_dict self).
Proof. unfold DataObject_to_dict. repeat wdo_step. Qed.

#[local] Hint Resolve wdo_from_bytes wdo_to_dict : wdo.

Lemma wdo_from_tlv (self : loc) (do : bytes) :
  writes_decoded_only (DataObject_from_tlv self do).
Proof. unfold DataObject_from_tlv. repeat wdo_step. Qed.

#[local] Hint Resolve wdo_from_tlv : wdo.

Lemma wdo_decode (self : loc) (binary : bytes) :
  writes_decoded_only (DataObject_decode self binary).
Proof. unfold DataObject_decode. repeat wdo_step. Qed.

Lemma read_only_to_tlv (fuel : nat) (self : loc) :
  read_only (DataObject_to_tlv fuel self).
Proof.
  intros h. unfold DataObject_to_tlv, DataObject_to_bytes,
    DataObject_compute_tag, get_obj, lift, mbind, mret, ST_bind, ST_ret.
  destruct (do_class_of (h self)) as [|fb tb]; cbn.
  - destruct (bertlv_encode_tag fuel _); cbn; [|done..].
    destruct (bertlv_encode_len _); done.
  - destruct (tb _); cbn; [|done..].
    destruct (bertlv_encode_tag fuel _); cbn; [|done..].
    destruct (bertlv_encode_len _); done.
Qed.

Lemma wdo_to_tlv (fuel : nat) (self : loc) :
  writes_decoded_only (DataObject_to_tlv fuel self).
Proof. apply read_only_wdo, read_only_to_tlv. Qed.

#[local] Hint Resolve wdo_decode wdo_to_tlv : wdo.

Lemma wdo_collection_decode_loop (fuel : nat) (self : DataObjectCollection)
    (res : list pydict) (remainder : bytes) :
  writes_decoded_only (DataObjectCollection_decode_loop fuel self res remainder).
Proof.
  revert res remainder. induction fuel as [|fuel IH]; intros res remainder;
    cbn [DataObjectCollection_decode_loop]; [auto with wdo|].
  repeat wdo_step.
Qed.

Lemma wdo_choice_decode (self : DataObjectCollection) (binary : bytes) :
  writes_decoded_only (DataObjectChoice_decode self binary).
Proof. unfold DataObjectChoice_decode. repeat wdo_step. Qed.

Lemma wdo_choice_encode (fuel : nat) (self : DataObjectCollection) (decoded : pydict) :
  writes_decoded_only (DataObjectChoice_encode fuel self decoded).
Proof. unfold DataObjectChoice_encode. repeat wdo_step. Qed.

#[local] Hint Resolve wdo_choice_decode wdo_choice_encode : wdo.

Lemma read_only_collection_encode (fuel : nat) (self : DataObjectCollection)
    (decoded : list (string * pyval)) :
  read_only (DataObjectCollection_encode fuel self decoded).
Proof. intros h. destruct decoded; reflexivity. Qed.

Lemma wdo_elem_decode (e : seq_elem) (binary : bytes) :
  writes_decoded_only (elem_decode e binary).
Proof. unfold elem_decode. repeat wdo_step. Qed.

Lemma wdo_elem_encode (fuel : nat) (e : seq_elem) (d : pydict) :
  writes_decoded_only (elem_encode fuel e d).
Proof. unfold elem_encode. repeat wdo_step. Qed.

#[local] Hint Resolve wdo_elem_decode wdo_elem_encode : wdo.

Lemma wdo_sequence_decode_loop (es : list seq_elem) (res : list pydict)
    (remainder : bytes) :
  writes_decoded_only (DataObjectSequence_decode_loop es res remainder).
Proof.
  revert res remainder. induction es as [|e es IH]; intros res remainder;
    cbn [DataObjectSequence_decode_loop]; [auto with wdo|].
  apply wdo_bind; [auto with wdo|]. intros [r rem]. apply IH.
Qed.

Lemma wdo_sequence_decode (self : DataObjectSequence) (binary : bytes) :
  writes_decoded_only (DataObjectSequence_decode self binary).
Proof. apply wdo_sequence_decode_loop. Qed.

Lemma wdo_sequence_decode_multi_loop (fuel : nat) (self : DataObjectSequence)
    (res : list (list pydict)) (remainder : bytes) :
  writes_decoded_only (DataObjectSequence_decode_multi_loop fuel self res remainder).
Proof.
  revert res remainder. induction fuel as [|fuel IH]; intros res remainder;
    cbn [DataObjectSequence_decode_multi_loop]; [auto with wdo|].
  destruct (length remainder =? 0)%nat; [auto with wdo|].
  apply wdo_bind; [apply wdo_sequence_decode|]. intros [r rem2].
  destruct (length rem2 <? length remainder)%nat; [apply IH|auto with wdo].
Qed.

Lemma wdo_sequence_encode_loop (fuel : nat) (es : list seq_elem)
    (decoded : list pydict) (i : nat) (encoded : bytes) :
  writes_decoded_only (DataObjectSequence_encode_loop fuel es decoded i encoded).
Proof.
  revert i encoded. induction es as [|e es IH]; intros i encoded;
    cbn [DataObjectSequence_encode_loop]; [auto with wdo|].
  destruct (decoded !! i); [|auto with wdo].
  apply wdo_bind; [auto with wdo|]. intros b. apply IH.
Qed.

Lemma wdo_sequence_encode_multi_loop (fuel : nat) (self : DataObjectSequence)
    (decoded : list (list pydict)) (encoded : bytes) :
  writes_decoded_only (DataObjectSequence_encode_multi_loop fuel self decoded encoded).
Proof.
  revert encoded. induction decoded as [|d decoded IH]; intros encoded;
    cbn [DataObjectSequence_encode_multi_loop]; [auto with wdo|].
  apply wdo_bind; [apply wdo_sequence_encode_loop|]. intros b. apply IH.
Qed.

(** ** Data objects: the decoding loops end

    The fuel that [decode] and [decode_multi] give their loops is never used
    up, as long as the value codecs of the objects return. *)

Lemma ST_bind_get_obj {B} (l : loc) (f : DataObject → ST B) (h : store) :
  (get_obj l ≫= f) h = f (h l) h.
Proof. reflexivity. Qed.

Lemma ST_bind_lift {B C} (r : result B) (f : B → ST C) (h : store) :
  (lift r ≫= f) h
  = match r with
    | Ok a => f a h
    | Raise e => (h, Raise e)
    | OutOfFuel => (h, OutOfFuel)
    end.
Proof. by destruct r. Qed.

Lemma ST_bind_eq {B C} (m : ST B) (f : B → ST C) (h : store) :
  (m ≫= f) h
  = match m h with
    | (h', Ok a) => f a h'
    | (h', Raise e) => (h', Raise e)
    | (h', OutOfFuel) => (h', OutOfFuel)
    end.
Proof. reflexivity. Qed.

Lemma DataObject_from_tlv_shorter (self : loc) (do r : bytes) (h h' : store) :
  DataObject_from_tlv self do h = (h', Ok r) → (length r < length do)%nat.
Proof.
  unfold DataObject_from_tlv. rewrite ST_bind_get_obj, ST_bind_lift.
  destruct do as [|b0 [|b1 rest]]; cbn [getitem lookup list_lookup].
  - discriminate.
  - destruct (tag_ne _ _); [discriminate|]. rewrite ST_bind_lift. discriminate.
  - destruct (tag_ne _ _); [discriminate|].
    rewrite ST_bind_lift, ST_bind_eq.
    destruct (DataObject_from_bytes _ _ _) as [h1 [[]| |]]; try discriminate.
    intros [= _ <-]. rewrite length_drop. simpl. lia.
Qed.

Lemma DataObject_from_bytes_terminates (self : loc) (do : bytes) (h : store) :
  (∀ fb tb b, do_class_of (h self) = Subclass fb tb → fb b ≠ OutOfFuel) →
  snd (DataObject_from_bytes self do h) ≠ OutOfFuel.
Proof.
  intros Hfb. unfold DataObject_from_bytes. rewrite ST_bind_get_obj.
  destruct (do_class_of (h self)) as [|fb tb] eqn:Hc.
  - destruct (negb _); simpl; congruence.
  - rewrite ST_bind_lift. specialize (Hfb fb tb do eq_refl).
    destruct (fb do); simpl; congruence.
Qed.

Lemma getitem_terminates (binary : bytes) (i : nat) :
  getitem binary i ≠ OutOfFuel.
Proof. unfold getitem. by destruct (binary !! i). Qed.

Lemma codecs_terminate_frame (h h' : store) :
  frame h h' → codecs_terminate h → codecs_terminate h'.
Proof.
  intros Hf Hh l fb tb b Hc. destruct (Hf l) as (_&_&_&_&_&Hcl).
  rewrite Hcl in Hc. eapply Hh, Hc.
Qed.

Lemma DataObject_from_tlv_terminates (self : loc) (do : bytes) (h : store) :
  codecs_terminate h → snd (DataObject_from_tlv self do h) ≠ OutOfFuel.
Proof.
  intros Hh. unfold DataObject_from_tlv. rewrite ST_bind_get_obj, ST_bind_lift.
  pose proof (getitem_terminates do 0).
  destruct (getitem do 0); [|(simpl; congruence)..].
  destruct (tag_ne _ _); [simpl; congruence|]. rewrite ST_bind_lift.
  pose proof (getitem_terminates do 1).
  destruct (getitem do 1); [|(simpl; congruence)..]. rewrite ST_bind_eq.
  pose proof (DataObject_from_bytes_terminates self
                (take (Z.to_nat a0) (drop 2 do)) h (Hh self)) as Hfb.
  destruct (DataObject_from_bytes _ _ _) as [h1 [[]| |]]; simpl in *; congruence.
Qed.

Lemma DataObjectCollection_decode_loop_terminates (fuel : nat)
    (self : DataObjectCollection) (res : list pydict) (remainder : bytes)
    (h : store) :
  codecs_terminate h → (length remainder < fuel)%nat →
  snd (DataObjectCollection_decode_loop fuel self res remainder h) ≠ OutOfFuel.
Proof.
  revert res remainder h.
  induction fuel as [|fuel IH]; intros res remainder h Hh Hlen; [lia|].
  cbn [DataObjectCollection_decode_loop].
  destruct (length remainder =? 0)%nat; [simpl; congruence|].
  rewrite ST_bind_lift. pose proof (getitem_terminates remainder 0).
  destruct (getitem remainder 0) as [tag| |]; [|(simpl; congruence)..].
  destruct (tag =? 0xff); [simpl; congruence|].
  destruct (members_by_tag self !! Some tag) as [obj|]; [|simpl; congruence].
  rewrite ST_bind_eq.
  pose proof (DataObject_from_tlv_terminates obj remainder h Hh) as Hterm.
  pose proof (wdo_from_tlv obj remainder h) as Hframe.
  destruct (DataObject_from_tlv obj remainder h) as [h1 [r| |]] eqn:Htlv;
    [|(simpl in *; congruence)..].
  apply DataObject_from_tlv_shorter in Htlv.
  unfold DataObject_to_dict. rewrite ST_bind_eq, ST_bind_get_obj.
  apply IH; [|lia].
  eapply codecs_terminate_frame; [exact Hframe|exact Hh].
Qed.

Lemma DataObjectCollection_decode_terminates (self : DataObjectCollection)
    (binary : bytes) (h : store) :
  codecs_terminate h →
  snd (DataObjectCollection_decode self binary h) ≠ OutOfFuel.
Proof.
  intros Hh. apply DataObjectCollection_decode_loop_terminates; [done|lia].
Qed.

Lemma DataObject_decode_terminates (self : loc) (binary : bytes) (h : store) :
  codecs_terminate h → snd (DataObject_decode self binary h) ≠ OutOfFuel.
Proof.
  intros Hh. unfold DataObject_decode. rewrite ST_bind_get_obj, ST_bind_lift.
  pose proof (getitem_terminates binary 0).
  destruct (getitem binary 0); [|(simpl; congruence)..].
  destruct (tag_ne _ _); [simpl; congruence|]. rewrite ST_bind_eq.
  pose proof (DataObject_from_tlv_terminates self binary h Hh).
  destruct (DataObject_from_tlv self binary h) as [h1 [r| |]];
    simpl in *; congruence.
Qed.

Lemma DataObjectChoice_decode_terminates (self : DataObjectCollection)
    (binary : bytes) (h : store) :
  codecs_terminate h → snd (DataObjectChoice_decode self binary h) ≠ OutOfFuel.
Proof.
  intros Hh. unfold DataObjectChoice_decode. rewrite ST_bind_lift.
  pose proof (getitem_terminates binary 0).
  destruct (getitem binary 0) as [tag| |]; [|(simpl; congruence)..].
  destruct (tag =? 0xff); [simpl; congruence|].
  destruct (members_by_tag self !! Some tag) as [obj|]; [|simpl; congruence].
  rewrite ST_bind_eq.
  pose proof (DataObject_from_tlv_terminates obj binary h Hh).
  destruct (DataObject_from_tlv obj binary h) as [h1 [r| |]];
    simpl in *; congruence.
Qed.

Lemma DataObjectSequence_decode_loop_terminates (es : list seq_elem)
    (res : list pydict) (remainder : bytes) (h : store) :
  codecs_terminate h →
  snd (DataObjectSequence_decode_loop es res remainder h) ≠ OutOfFuel.
Proof.
  revert res remainder h.
  induction es as [|e es IH]; intros res remainder h Hh;
    cbn [DataObjectSequence_decode_loop]; [simpl; congruence|].
  rewrite ST_bind_eq.
  pose proof (wdo_elem_decode e remainder h) as Hframe.
  assert (Hterm : snd (elem_decode e remainder h) ≠ OutOfFuel).
  { destruct e as [obj|c]; cbn [elem_decode].
    - rewrite ST_bind_eq.
      pose proof (DataObject_decode_terminates obj remainder h Hh).
      destruct (DataObject_decode obj remainder h) as [h1 [[d r]| |]];
        simpl in *; congruence.
    - by apply DataObjectChoice_decode_terminates. }
  destruct (elem_decode e remainder h) as [h1 [[r rem]| |]];
    [|(simpl in *; congruence)..].
  apply IH. eapply codecs_terminate_frame; [exact Hframe|exact Hh].
Qed.

Lemma DataObjectSequence_decode_multi_loop_terminates (fuel : nat)
    (self : DataObjectSequence) (res : list (list pydict)) (remainder : bytes)
    (h : store) :
  codecs_terminate h → (length remainder < fuel)%nat →
  snd (DataObjectSequence_decode_multi_loop fuel self res remainder h) ≠ OutOfFuel.
Proof.
  revert res remainder h.
  induction fuel as [|fuel IH]; intros res remainder h Hh Hlen; [lia|].
  cbn [DataObjectSequence_decode_multi_loop].
  destruct (length remainder =? 0)%nat; [simpl; congruence|].
  rewrite ST_bind_eq.
  pose proof (DataObjectSequence_decode_loop_terminates
                (sequence self) [] remainder h Hh) as Hterm.
  pose proof (wdo_sequence_decode self remainder h) as Hframe.
  unfold DataObjectSequence_decode in *.
  destruct (DataObjectSequence_decode_loop _ _ _ h) as [h1 [[r rem2]| |]];
    [|(simpl in *; congruence)..].
  destruct (Nat.ltb_spec (length rem2) (length remainder)); [|simpl; congruence].
  apply IH; [|lia].
  eapply codecs_terminate_frame; [exact Hframe|exact Hh].
Qed.

Lemma DataObjectSequence_decode_multi_terminates (self : DataObjectSequence)
    (do : bytes) (h : store) :
  codecs_terminate h →
  snd (DataObjectSequence_decode_multi self do h) ≠ OutOfFuel.
Proof.
  intros Hh. apply DataObjectSequence_decode_multi_loop_terminates; [done|lia].
Qed.

(** ** Data objects: the claims *)

(** C3 fails on the code: [from_tlv] takes the byte after the tag as the
    length, whatever its top bit.  On 31 81 01 AA BB the BER-TLV length field
    81 01 announces one value byte (AA) and leaves BB; [from_tlv] reads the
    length 0x81 = 129, hands 01 AA BB to the value codec and returns an empty
    remainder. *)
Theorem DataObject_from_tlv_long_form :
  bertlv_parse_len [x81; x01; xaa; xbb] = Ok (1, [xaa; xbb]) ∧
  DataObject_from_tlv 1%nat [x31; x81; x01; xaa; xbb] example_store
  = (<[1%nat := with_decoded (example_store 1%nat) (PyBytes [x01; xaa; xbb])]>
       example_store,
     Ok []).
Proof. split; reflexivity. Qed.

(** What [from_tlv] does on a buffer that starts with the object's tag: the
    second byte is the length, the value is cut (clamped at the end of the
    buffer) behind it. *)
Lemma DataObject_from_tlv_unfold (self : loc) (t l : byte) (rest : bytes)
    (h : store) :
  do_tag (h self) = Some (byte_val t) →
  DataObject_from_tlv self (t :: l :: rest) h
  = (_ ← DataObject_from_bytes self (take (Z.to_nat (byte_val l)) rest);
     mret (drop (Z.to_nat (byte_val l)) rest)) h.
Proof.
  intros Htag. unfold DataObject_from_tlv.
  rewrite ST_bind_get_obj, ST_bind_lift. cbn [getitem lookup list_lookup].
  rewrite Htag. cbn [tag_ne]. rewrite Z.eqb_refl. cbn [negb].
  rewrite ST_bind_lift. reflexivity.
Qed.

(** The sibling [to_tlv] does write the long form: a 128-byte value gets the
    length field 81 80, and [from_tlv] does not read back what [to_tlv]
    wrote. *)
Example DataObject_to_tlv_from_tlv_128 :
  let v := replicate 128 x00 in
  let h := <[1%nat := with_decoded (example_store 1%nat) (PyBytes v)]> example_store in
  snd (DataObject_to_tlv 1 1%nat h) = Ok (x31 :: x81 :: x80 :: v) ∧
  do_decoded (fst (DataObject_from_tlv 1%nat (x31 :: x81 :: x80 :: v) h) 1%nat)
  = PyBytes (x80 :: v).
Proof. split; vm_compute; reflexivity. Qed.

(** C2 fails on the code: on every non-empty list [encode] raises TypeError
    at the first item, before any member is looked up, because the index
    [members_by_name] is applied with call syntax. *)
Theorem DataObjectCollection_encode_raises (fuel : nat)
    (self : DataObjectCollection) (i : string * pyval)
    (decoded : list (string * pyval)) (h : store) :
  DataObjectCollection_encode fuel self (i :: decoded) h = (h, Raise TypeError).
Proof. reflexivity. Qed.

Example DataObjectCollection_encode_named_member :
  members_by_name example_choice !! "a"%string = Some 0%nat ∧
  DataObjectCollection_encode 1 example_choice [("a"%string, PyInt 1)] example_store
  = (example_store, Raise TypeError).
Proof. split; reflexivity. Qed.

(** C4, as stated, fails: parsing 30 00 with the TL0 object at location 0
    changes that object (its [decoded] goes from None to its [val]), and
    [DataObjectChoice.encode] writes the value it is given into the [decoded]
    of the member it selects. *)
Lemma decode_and_encode_write_decoded :
  fst (DataObject_from_tlv 0%nat [x30; x00] example_store) 0%nat ≠ example_store 0%nat ∧
  do_decoded (example_store 0%nat) = PyNone ∧
  do_decoded (fst (DataObject_from_tlv 0%nat [x30; x00] example_store) 0%nat) = PyInt 1 ∧
  do_decoded (fst (DataObjectChoice_decode example_choice [x30; x00] example_store) 0%nat)
  = PyInt 1 ∧
  do_decoded (fst (DataObjectChoice_encode 1 example_choice
                     [("b"%string, PyBytes [x01])] example_store) 1%nat)
  = PyBytes [x01].
Proof.
  split; [|repeat split; reflexivity].
  intros Heq. apply (f_equal do_decoded) in Heq. vm_compute in Heq. discriminate.
Qed.

(** ** Data objects: what a call assigns *)

Lemma assign_all_cons (w : loc * pyval) (ws : list (loc * pyval)) (h : store) :
  assign_all (w :: ws) h = assign_all ws (<[w.1 := with_decoded (h w.1) w.2]> h).
Proof. reflexivity. Qed.

Lemma assign_all_app (ws1 ws2 : list (loc * pyval)) (h : store) :
  assign_all (ws1 ++ ws2) h = assign_all ws2 (assign_all ws1 h).
Proof. apply foldl_app. Qed.

Lemma assign_all_same_but_decoded (ws : list (loc * pyval)) (h : store) (l : loc) :
  same_but_decoded (h l) (assign_all ws h l).
Proof.
  revert h. induction ws as [|w ws IH]; intros h; [apply same_but_decoded_refl|].
  rewrite assign_all_cons. eapply same_but_decoded_trans; [|apply IH].
  unfold insert, fn_insert. destruct (decide (w.1 = l)) as [->|Hne].
  - by repeat split.
  - apply same_but_decoded_refl.
Qed.

Lemma assign_all_name (ws : list (loc * pyval)) (h : store) (l : loc) :
  do_name (assign_all ws h l) = do_name (h l).
Proof. apply assign_all_same_but_decoded. Qed.

Lemma dict_of_assign_all (ws : list (loc * pyval)) (h : store) (w : loc * pyval) :
  dict_of (assign_all ws h) w = dict_of h w.
Proof. unfold dict_of. by rewrite assign_all_name. Qed.

Lemma assign_all_other (ws : list (loc * pyval)) (h : store) (l : loc) :
  l ∉ ws.*1 → assign_all ws h l = h l.
Proof.
  revert h. induction ws as [|w ws IH]; intros h Hl; [done|].
  rewrite assign_all_cons. rewrite fmap_cons, not_elem_of_cons in Hl.
  destruct Hl as [Hne Hl]. rewrite IH by done. unfold insert, fn_insert.
  destruct (decide (w.1 = l)); congruence.
Qed.

Lemma assign_all_last (ws : list (loc * pyval)) (h : store) (l : loc) (v : pyval) :
  do_decoded (assign_all (ws ++ [(l, v)]) h l) = v.
Proof.
  rewrite assign_all_app. cbn [assign_all foldl fst snd].
  unfold insert, fn_insert. by destruct (decide (l = l)).
Qed.

(** [from_bytes] assigns [self.decoded] when it returns, and nothing when it
    raises. *)
Lemma DataObject_from_bytes_assigns (self : loc) (do : bytes) (h : store) :
  match DataObject_from_bytes self do h with
  | (h', Ok _) =>
      ∃ v, h' = <[self := with_decoded (h self) v]> h ∧
           match do_class_of (h self) with
           | TL0_DataObject => do = [] ∧ v = do_val (h self)
           | Subclass from_bytes _ => from_bytes do = Ok v
           end
  | (h', _) => h' = h
  end.
Proof.
  unfold DataObject_from_bytes. rewrite ST_bind_get_obj.
  destruct (do_class_of (h self)) as [|fb tb].
  - destruct do as [|b do]; cbn; [|done]. by eexists.
  - rewrite ST_bind_lift. destruct (fb do) as [v| |]; cbn; [|done..]. by eexists.
Qed.

Lemma DataObject_from_tlv_assigns (self : loc) (do : bytes) (h : store) :
  match DataObject_from_tlv self do h with
  | (h', Ok rem) =>
      ∃ n v, getitem do 1 = Ok n ∧ rem = drop (2 + Z.to_nat n) do ∧
             h' = <[self := with_decoded (h self) v]> h ∧
             let val := take (Z.to_nat n) (drop 2 do) in
             match do_class_of (h self) with
             | TL0_DataObject => val = [] ∧ v = do_val (h self)
             | Subclass from_bytes _ => from_bytes val = Ok v
             end
  | (h', _) => h' = h
  end.
Proof.
  unfold DataObject_from_tlv. rewrite ST_bind_get_obj, ST_bind_lift.
  destruct (getitem do 0) as [do0| |]; cbn [lift]; [|done..].
  destruct (tag_ne do0 (do_tag (h self))); [done|].
  rewrite ST_bind_lift. destruct (getitem do 1) as [n| |]; [|done..].
  pose proof (DataObject_from_bytes_assigns self (take (Z.to_nat n) (drop 2 do)) h)
    as Hfb.
  unfold mbind at 1, ST_bind.
  destruct (DataObject_from_bytes self _ h) as [h' [[]| |]]; [|done..].
  destruct Hfb as (v & -> & Hv). cbn [mret ST_ret]. by exists n, v.
Qed.

Lemma insert_decoded_lookup (l : loc) (v : pyval) (h : store) :
  (<[l := with_decoded (h l) v]> h) l = with_decoded (h l) v.
Proof. unfold insert, fn_insert. by destruct (decide (l = l)). Qed.

Lemma dict_of_insert_decoded (l : loc) (v : pyval) (h : store) (w : loc * pyval) :
  dict_of (<[l := with_decoded (h l) v]> h) w = dict_of h w.
Proof. apply (dict_of_assign_all [(l, v)]). Qed.

(** [decode] returns the dict read back from the attribute that [from_tlv]
    has just assigned. *)
Lemma DataObject_decode_assigns (self : loc) (binary : bytes) (h : store) :
  match DataObject_decode self binary h with
  | (h', Ok (d, rem)) =>
      DataObject_from_tlv self binary h = (h', Ok rem) ∧
      d = [(do_name (h' self), do_decoded (h' self))]
  | (h', _) => h' = h
  end.
Proof.
  unfold DataObject_decode. rewrite ST_bind_get_obj, ST_bind_lift.
  destruct (getitem binary 0) as [t| |]; [|done..].
  destruct (tag_ne t (do_tag (h self))); [done|].
  pose proof (DataObject_from_tlv_assigns self binary h) as Hft.
  rewrite ST_bind_eq.
  destruct (DataObject_from_tlv self binary h) as [h' [rem| |]]; done.
Qed.

Lemma DataObjectChoice_decode_assigns (self : DataObjectCollection)
    (binary : bytes) (h : store) :
  match DataObjectChoice_decode self binary h with
  | (h', Ok (Some d, rem)) =>
      ∃ t obj, getitem binary 0 = Ok t ∧
               members_by_tag self !! Some t = Some obj ∧
               DataObject_from_tlv obj binary h = (h', Ok rem) ∧
               d = [(do_name (h' obj), do_decoded (h' obj))]
  | (h', _) => h' = h
  end.
Proof.
  unfold DataObjectChoice_decode. rewrite ST_bind_lift.
  destruct (getitem binary 0) as [t| |]; [|done..].
  destruct (t =? 0xff); [done|].
  destruct (members_by_tag self !! Some t) as [obj|] eqn:Hobj; [|done].
  pose proof (DataObject_from_tlv_assigns obj binary h) as Hft.
  rewrite ST_bind_eq.
  destruct (DataObject_from_tlv obj binary h) as [h' [rem| |]] eqn:Heq; [|done..].
  cbn. by exists t, obj.
Qed.

(** [DataObjectChoice.encode] assigns before it encodes: the assignment
    stays whatever [to_tlv] does. *)
Lemma DataObjectChoice_encode_assigns (fuel : nat) (self : DataObjectCollection)
    (decoded : pydict) (h : store) :
  DataObjectChoice_encode fuel self decoded h
  = match decoded with
    | [] => (h, Raise IndexError)
    | (k, v) :: _ =>
        match members_by_name self !! k with
        | None => (h, Raise KeyError)
        | Some obj =>
            let h' := <[obj := with_decoded (h obj) v]> h in
            (h', snd (DataObject_to_tlv fuel obj h'))
        end
    end.
Proof.
  destruct decoded as [|[k v] decoded]; [done|]. cbn [DataObjectChoice_encode].
  destruct (members_by_name self !! k) as [obj|]; [|done].
  rewrite ST_bind_eq. cbn [set_decoded]. cbv zeta.
  pose proof (read_only_to_tlv fuel obj (<[obj := with_decoded (h obj) v]> h)) as Hro.
  destruct (DataObject_to_tlv fuel obj _) as [h' r]. cbn in Hro. by subst h'.
Qed.

Lemma collection_decode_loop_assigns (fuel : nat) (self : DataObjectCollection)
    (res0 : list pydict) (remainder : bytes) (h : store) :
  ∃ ws,
    fst (DataObjectCollection_decode_loop fuel self res0 remainder h)
    = assign_all ws h ∧
    Forall (fun w => ∃ t, members_by_tag self !! Some t = Some w.1) ws ∧
    ∀ res rem,
      snd (DataObjectCollection_decode_loop fuel self res0 remainder h)
      = Ok (res, rem) →
      res = res0 ++ map (dict_of h) ws.
Proof.
  revert res0 remainder h.
  induction fuel as [|fuel IH]; intros res0 remainder h;
    cbn [DataObjectCollection_decode_loop].
  { exists []. by split_and!. }
  destruct (length remainder =? 0)%nat.
  { exists []. split_and!; [done..|]. intros ?? [= <- <-]. by rewrite app_nil_r. }
  rewrite ST_bind_lift. destruct (getitem remainder 0) as [t| |];
    [|exists []; by split_and!..].
  destruct (t =? 0xff).
  { exists []. split_and!; [done..|]. intros ?? [= <- <-]. by rewrite app_nil_r. }
  destruct (members_by_tag self !! Some t) as [obj|] eqn:Hobj;
    [|exists []; by split_and!].
  pose proof (DataObject_from_tlv_assigns obj remainder h) as Hft.
  rewrite ST_bind_eq.
  destruct (DataObject_from_tlv obj remainder h) as [h1 [r| |]];
    [|subst h1; exists []; by split_and!..].
  destruct Hft as (n & v & _ & _ & -> & _).
  unfold DataObject_to_dict. rewrite ST_bind_eq, ST_bind_get_obj.
  cbn [mret ST_ret]. rewrite insert_decoded_lookup. cbn [with_decoded do_name do_decoded].
  destruct (IH (res0 ++ [[(do_name (h obj), v)]]) r
              (<[obj := with_decoded (h obj) v]> h)) as (ws & Hfst & Hall & Hres).
  exists ((obj, v) :: ws). split_and!.
  - by rewrite Hfst.
  - constructor; [by exists t|done].
  - intros res rem Hok. rewrite (Hres res rem Hok), <- app_assoc. cbn [map app].
    do 2 f_equal. apply map_ext. intros w. apply dict_of_insert_decoded.
Qed.

Lemma elem_decode_assigns (e : seq_elem) (binary : bytes) (h : store) :
  match elem_decode e binary h with
  | (h', Ok (Some d, rem)) =>
      ∃ l v, h' = <[l := with_decoded (h l) v]> h ∧ d = dict_of h (l, v) ∧
             (e = ElemDO l ∨
              ∃ c t, e = ElemChoice c ∧ members_by_tag c !! Some t = Some l)
  | (h', _) => h' = h
  end.
Proof.
  destruct e as [obj|c]; cbn [elem_decode].
  - pose proof (DataObject_decode_assigns obj binary h) as Hd.
    pose proof (DataObject_from_tlv_assigns obj binary h) as Hft.
    rewrite ST_bind_eq.
    destruct (DataObject_decode obj binary h) as [h' [[d rem]| |]]; [|done..].
    destruct Hd as [Hd ->]. rewrite Hd in Hft.
    destruct Hft as (n & v & _ & _ & -> & _). cbn [mret ST_ret].
    exists obj, v. rewrite insert_decoded_lookup. split_and!; [done..|by left].
  - pose proof (DataObjectChoice_decode_assigns c binary h) as Hd.
    destruct (DataObjectChoice_decode c binary h) as [h' [[[d|] rem]| |]]; [|done..].
    destruct Hd as (t & obj & _ & Hobj & Hd & ->).
    pose proof (DataObject_from_tlv_assigns obj binary h) as Hft.
    rewrite Hd in Hft. destruct Hft as (n & v & _ & _ & -> & _).
    exists obj, v. rewrite insert_decoded_lookup. split_and!; [done..|].
    right. by exists c, t.
Qed.

Lemma sequence_decode_loop_assigns (P : loc → Prop) (es : list seq_elem)
    (res0 : list pydict) (remainder : bytes) (h : store) :
  (∀ l, ElemDO l ∈ es → P l) →
  (∀ c t l, ElemChoice c ∈ es → members_by_tag c !! Some t = Some l → P l) →
  ∃ ws,
    fst (DataObjectSequence_decode_loop es res0 remainder h) = assign_all ws h ∧
    Forall (fun w => P w.1) ws ∧
    ∀ res rem,
      snd (DataObjectSequence_decode_loop es res0 remainder h) = Ok (res, rem) →
      res = res0 ++ map (dict_of h) ws.
Proof.
  revert res0 remainder h.
  induction es as [|e es IH]; intros res0 remainder h HDO HCh;
    cbn [DataObjectSequence_decode_loop].
  { exists []. split_and!; [done..|]. intros ?? [= <- <-]. by rewrite app_nil_r. }
  pose proof (elem_decode_assigns e remainder h) as He.
  rewrite ST_bind_eq.
  assert (HDO' : ∀ l, ElemDO l ∈ es → P l)
    by (intros l Hl; apply HDO; by right).
  assert (HCh' : ∀ c t l, ElemChoice c ∈ es →
                          members_by_tag c !! Some t = Some l → P l)
    by (intros c t l Hc; apply HCh; by right).
  destruct (elem_decode e remainder h) as [h1 [[[d|] rem1]| |]];
    [| |subst h1; exists []; by split_and!..].
  - destruct He as (l & v & -> & -> & Hl).
    cbn [dict_truthy dict_of default from_option fst snd]. unfold id.
    destruct (IH (res0 ++ [dict_of h (l, v)]) rem1
                (<[l := with_decoded (h l) v]> h) HDO' HCh')
      as (ws & Hfst & Hall & Hres).
    exists ((l, v) :: ws). split_and!.
    + by rewrite Hfst.
    + constructor; [|done]. cbn [fst].
      destruct Hl as [->|(c & t & -> & Hl)]; [apply HDO; by left|].
      eapply HCh; [by left|done].
    + intros res rem Hok. rewrite (Hres res rem Hok), <- app_assoc. cbn [map app].
      do 2 f_equal. apply map_ext. intros w. apply dict_of_insert_decoded.
  - subst h1. cbn [dict_truthy]. apply IH; done.
Qed.

Lemma sequence_decode_assigns (self : DataObjectSequence) (binary : bytes)
    (h : store) :
  ∃ ws,
    fst (DataObjectSequence_decode self binary h) = assign_all ws h ∧
    Forall (fun w => decode_leaf self w.1) ws ∧
    ∀ res rem,
      snd (DataObjectSequence_decode self binary h) = Ok (res, rem) →
      res = map (dict_of h) ws.
Proof.
  apply (sequence_decode_loop_assigns (decode_leaf self) (sequence self) []).
  - intros l Hl. by left.
  - intros c t l Hc Hl. right. by exists c, t.
Qed.

Lemma sequence_decode_multi_loop_assigns (fuel : nat) (self : DataObjectSequence)
    (res0 : list (list pydict)) (remainder : bytes) (h : store) :
  ∃ ws,
    fst (DataObjectSequence_decode_multi_loop fuel self res0 remainder h)
    = assign_all ws h ∧
    Forall (fun w => decode_leaf self w.1) ws ∧
    ∀ res rem,
      snd (DataObjectSequence_decode_multi_loop fuel self res0 remainder h)
      = Ok (res, rem) →
      concat res = concat res0 ++ map (dict_of h) ws.
Proof.
  revert res0 remainder h.
  induction fuel as [|fuel IH]; intros res0 remainder h;
    cbn [DataObjectSequence_decode_multi_loop].
  { exists []. by split_and!. }
  destruct (length remainder =? 0)%nat.
  { exists []. split_and!; [done..|]. intros ?? [= <- <-]. by rewrite app_nil_r. }
  destruct (sequence_decode_assigns self remainder h) as (ws1 & Hfst1 & Hall1 & Hres1).
  rewrite ST_bind_eq.
  destruct (DataObjectSequence_decode self remainder h) as [h1 [[r rem2]| |]];
    cbn [fst snd] in *; [|exists ws1; by split_and!..].
  specialize (Hres1 r rem2 eq_refl). subst h1.
  set (res1 := match r with [] => res0 | _ :: _ => res0 ++ [r] end).
  assert (Hcat : concat res1 = concat res0 ++ map (dict_of h) ws1).
  { subst res1. rewrite <- Hres1. destruct r; [by rewrite app_nil_r|].
    rewrite concat_app. cbn [concat]. by rewrite app_nil_r. }
  destruct (length rem2 <? length remainder)%nat.
  - destruct (IH res1 rem2 (assign_all ws1 h)) as (ws2 & Hfst2 & Hall2 & Hres2).
    exists (ws1 ++ ws2). split_and!.
    + by rewrite Hfst2, assign_all_app.
    + by apply Forall_app.
    + intros res rem Hok. rewrite (Hres2 res rem Hok), Hcat, <- app_assoc, map_app.
      do 2 f_equal. apply map_ext. intros w. apply dict_of_assign_all.
  - exists ws1. split_and!; [done..|]. by intros ?? [= <- <-].
Qed.

Lemma sequence_encode_loop_assigns (P : loc * pyval → Prop) (fuel : nat)
    (es : list seq_elem) (decoded : list pydict) (i : nat) (encoded : bytes)
    (h : store) :
  (∀ c d k v l, ElemChoice c ∈ es → d ∈ decoded → head d = Some (k, v) →
                members_by_name c !! k = Some l → P (l, v)) →
  ∃ ws,
    fst (DataObjectSequence_encode_loop fuel es decoded i encoded h)
    = assign_all ws h ∧ Forall P ws.
Proof.
  revert i encoded h.
  induction es as [|e es IH]; intros i encoded h HP;
    cbn [DataObjectSequence_encode_loop]; [by exists []|].
  destruct (decoded !! i) as [d|] eqn:Hd; [|by exists []].
  apply list_elem_of_lookup_2 in Hd.
  assert (HP' : ∀ c d k v l, ElemChoice c ∈ es → d ∈ decoded →
                  head d = Some (k, v) → members_by_name c !! k = Some l → P (l, v))
    by (intros c d' k v l Hc; apply HP; by right).
  rewrite ST_bind_eq. destruct e as [obj|c]; cbn [elem_encode]; [by exists []|].
  rewrite DataObjectChoice_encode_assigns.
  destruct d as [|[k v] d]; [by exists []|].
  destruct (members_by_name c !! k) as [obj|] eqn:Hobj; [|by exists []].
  cbv zeta.
  assert (Hw : P (obj, v)) by (eapply HP; [by left|done|done|done]).
  destruct (snd (DataObject_to_tlv fuel obj _)) as [b| |];
    [|exists [(obj, v)]; split; [done|by constructor]..].
  destruct (IH (S i) (encoded ++ b) (<[obj := with_decoded (h obj) v]> h) HP')
    as (ws & Hfst & Hall).
  exists ((obj, v) :: ws). split; [by rewrite Hfst|by constructor].
Qed.

Lemma sequence_encode_assigns (fuel : nat) (self : DataObjectSequence)
    (decoded : list pydict) (h : store) :
  ∃ ws,
    fst (DataObjectSequence_encode fuel self decoded h) = assign_all ws h ∧
    Forall (encode_assign self decoded) ws.
Proof.
  apply sequence_encode_loop_assigns. intros c d k v l Hc Hd Hhd Hl.
  by exists c, d, k.
Qed.

Lemma sequence_encode_multi_loop_assigns (fuel : nat) (self : DataObjectSequence)
    (decoded : list (list pydict)) (encoded : bytes) (h : store) :
  ∃ ws,
    fst (DataObjectSequence_encode_multi_loop fuel self decoded encoded h)
    = assign_all ws h ∧
    Forall (fun w => ∃ ds, ds ∈ decoded ∧ encode_assign self ds w) ws.
Proof.
  revert encoded h.
  induction decoded as [|d decoded IH]; intros encoded h;
    cbn [DataObjectSequence_encode_multi_loop]; [by exists []|].
  destruct (sequence_encode_assigns fuel self d h) as (ws1 & Hfst1 & Hall1).
  assert (Hall1' : Forall (fun w => ∃ ds, ds ∈ d :: decoded ∧
                                      encode_assign self ds w) ws1).
  { eapply Forall_impl; [exact Hall1|]. intros w Hw. exists d. split; [by left|done]. }
  rewrite ST_bind_eq.
  destruct (DataObjectSequence_encode fuel self d h) as [h1 [b| |]];
    cbn [fst] in Hfst1; subst h1; [|by exists ws1..].
  destruct (IH (encoded ++ b) (assign_all ws1 h)) as (ws2 & Hfst2 & Hall2).
  exists (ws1 ++ ws2). split; [by rewrite Hfst2, assign_all_app|].
  apply Forall_app. split; [done|].
  eapply Forall_impl; [exact Hall2|]. intros w (ds & Hds & Hw).
  exists ds. split; [by right|done].
Qed.

(** C4, amended: grammar nodes keep what they parse, in the [decoded]
    attribute of the DataObject that claimed the record, and nowhere else.
    The [from_bytes] and [to_bytes] of a DataObject subclass are abstract in
    the source; the statement takes them as the class gives them: a
    [from_bytes] that does no more than assign to [self.decoded] the value
    it computes from the value bytes (as [TL0_DataObject.from_bytes] does
    with [self.val]), and a [to_bytes] that only reads.  Then, for every
    node, input and store:
    - no [from_tlv], [decode], [decode_multi], [encode] or [encode_multi]
      call changes an attribute other than [decoded] of any object, whatever
      its outcome, and [DataObject.encode] and [DataObjectCollection.encode]
      write nothing at all;
    - [from_tlv], when it returns, has made the one assignment
      [self.decoded = v], with [v] the value that [from_bytes] gives for the
      value bytes [do[2:2+do[1]]], and has left every other object as it
      was; when it raises it has written nothing;
    - [DataObject.decode] and [DataObjectChoice.decode], when they return a
      dict, return [{name: decoded}] as read back from the object that
      [from_tlv] has just assigned (for a choice, the member indexed under
      the first byte); when they raise, or the choice returns None, nothing
      was written;
    - [DataObjectChoice.encode] assigns the first value of its dict to the
      [decoded] of the member under the first key and returns what [to_tlv]
      of that member then gives; the assignment stays if [to_tlv] raises,
      and without such a member nothing is written;
    - what [DataObjectCollection.decode], [DataObjectSequence.decode] and
      [decode_multi] leave behind, whatever their outcome, is a list of
      assignments to [decoded] of the objects they index, and the dicts they
      return are, in this order, [{name: v}] for each assignment made;
    - what [DataObjectSequence.encode] and [encode_multi] leave behind is a
      list of such assignments made by the choices of the sequence, each of
      the first value of an input dict to the member under its first key;
    - a list of assignments changes [decoded] only, leaves the objects it
      does not name as they were, and its last assignment to an object is
      the value found there afterwards. *)
Theorem grammar_calls_write_decoded_only :
  ((∀ self do, writes_decoded_only (DataObject_from_tlv self do)) ∧
   (∀ self binary, writes_decoded_only (DataObject_decode self binary)) ∧
   (∀ self binary, writes_decoded_only (DataObjectCollection_decode self binary)) ∧
   (∀ self binary, writes_decoded_only (DataObjectChoice_decode self binary)) ∧
   (∀ self binary, writes_decoded_only (DataObjectSequence_decode self binary)) ∧
   (∀ self do, writes_decoded_only (DataObjectSequence_decode_multi self do)) ∧
   (∀ fuel self decoded,
      writes_decoded_only (DataObjectChoice_encode fuel self decoded)) ∧
   (∀ fuel self decoded,
      writes_decoded_only (DataObjectSequence_encode fuel self decoded)) ∧
   (∀ fuel self decoded,
      writes_decoded_only (DataObjectSequence_encode_multi fuel self decoded)) ∧
   (∀ fuel self, read_only (DataObject_encode fuel self)) ∧
   (∀ fuel self decoded, read_only (DataObjectCollection_encode fuel self decoded))) ∧
  (∀ self do h,
     match DataObject_from_tlv self do h with
     | (h', Ok rem) =>
         ∃ n v, getitem do 1 = Ok n ∧ rem = drop (2 + Z.to_nat n) do ∧
                h' = <[self := with_decoded (h self) v]> h ∧
                let val := take (Z.to_nat n) (drop 2 do) in
                match do_class_of (h self) with
                | TL0_DataObject => val = [] ∧ v = do_val (h self)
                | Subclass from_bytes _ => from_bytes val = Ok v
                end
     | (h', _) => h' = h
     end) ∧
  (∀ self binary h,
     match DataObject_decode self binary h with
     | (h', Ok (d, rem)) =>
         DataObject_from_tlv self binary h = (h', Ok rem) ∧
         d = [(do_name (h' self), do_decoded (h' self))]
     | (h', _) => h' = h
     end) ∧
  (∀ self binary h,
     match DataObjectChoice_decode self binary h with
     | (h', Ok (Some d, rem)) =>
         ∃ t obj, getitem binary 0 = Ok t ∧
                  members_by_tag self !! Some t = Some obj ∧
                  DataObject_from_tlv obj binary h = (h', Ok rem) ∧
                  d = [(do_name (h' obj), do_decoded (h' obj))]
     | (h', _) => h' = h
     end) ∧
  (∀ fuel self decoded h,
     DataObjectChoice_encode fuel self decoded h
     = match decoded with
       | [] => (h, Raise IndexError)
       | (k, v) :: _ =>
           match members_by_name self !! k with
           | None => (h, Raise KeyError)
           | Some obj =>
               let h' := <[obj := with_decoded (h obj) v]> h in
               (h', snd (DataObject_to_tlv fuel obj h'))
           end
       end) ∧
  (∀ self binary h, ∃ ws,
     fst (DataObjectCollection_decode self binary h) = assign_all ws h ∧
     Forall (fun w => ∃ t, members_by_tag self !! Some t = Some w.1) ws ∧
     ∀ res rem,
       snd (DataObjectCollection_decode self binary h) = Ok (res, rem) →
       res = map (dict_of h) ws) ∧
  (∀ self binary h, ∃ ws,
     fst (DataObjectSequence_decode self binary h) = assign_all ws h ∧
     Forall (fun w => decode_leaf self w.1) ws ∧
     ∀ res rem,
       snd (DataObjectSequence_decode self binary h) = Ok (res, rem) →
       res = map (dict_of h) ws) ∧
  (∀ self do h, ∃ ws,
     fst (DataObjectSequence_decode_multi self do h) = assign_all ws h ∧
     Forall (fun w => decode_leaf self w.1) ws ∧
     ∀ res rem,
       snd (DataObjectSequence_decode_multi self do h) = Ok (res, rem) →
       concat res = map (dict_of h) ws) ∧
  (∀ fuel self decoded h, ∃ ws,
     fst (DataObjectSequence_encode fuel self decoded h) = assign_all ws h ∧
     Forall (encode_assign self decoded) ws) ∧
  (∀ fuel self decoded h, ∃ ws,
     fst (DataObjectSequence_encode_multi fuel self decoded h) = assign_all ws h ∧
     Forall (fun w => ∃ ds, ds ∈ decoded ∧ encode_assign self ds w) ws) ∧
  (∀ ws h,
     frame h (assign_all ws h) ∧
     (∀ l, l ∉ ws.*1 → assign_all ws h l = h l) ∧
     (∀ l v, do_decoded (assign_all (ws ++ [(l, v)]) h l) = v)).
Proof.
  split_and!.
  - apply wdo_from_tlv.
  - apply wdo_decode.
  - intros. apply wdo_collection_decode_loop.
  - apply wdo_choice_decode.
  - apply wdo_sequence_decode.
  - intros. apply wdo_sequence_decode_multi_loop.
  - apply wdo_choice_encode.
  - intros. apply wdo_sequence_encode_loop.
  - intros. apply wdo_sequence_encode_multi_loop.
  - intros. apply read_only_to_tlv.
  - apply read_only_collection_encode.
  - apply DataObject_from_tlv_assigns.
  - apply DataObject_decode_assigns.
  - apply DataObjectChoice_decode_assigns.
  - apply DataObjectChoice_encode_assigns.
  - intros self binary h.
    destruct (collection_decode_loop_assigns (S (length binary)) self [] binary h)
      as (ws & Hfst & Hall & Hres). by exists ws.
  - apply sequence_decode_assigns.
  - intros self do h.
    destruct (sequence_decode_multi_loop_assigns (S (length do)) self [] do h)
      as (ws & Hfst & Hall & Hres). by exists ws.
  - apply sequence_encode_assigns.
  - intros. apply sequence_encode_multi_loop_assigns.
  - intros ws h. split_and!.
    + intros l. apply assign_all_same_but_decoded.
    + intros l. apply assign_all_other.
    + intros l v. apply assign_all_last.
Qed.

(** On 30 00 31 01 AA the example choice, read as a collection, assigns the
    [decoded] of both members and returns the two dicts. *)
Lemma grammar_calls_write_decoded_only_witness :
  ∃ ws,
    fst (DataObjectCollection_decode example_choice [x30; x00; x31; x01; xaa]
           example_store) = assign_all ws example_store ∧
    map (dict_of example_store) ws
    = [[("a"%string, PyInt 1)]; [("b"%string, PyBytes [xaa])]].
Proof.
  destruct grammar_calls_write_decoded_only
    as (_ & _ & _ & _ & _ & Hcoll & _).
  destruct (Hcoll example_choice [x30; x00; x31; x01; xaa] example_store)
    as (ws & Hfst & _ & Hres).
  exists ws. split; [exact Hfst|]. symmetry. apply (Hres _ []).
  vm_compute. reflexivity.
Defined.

(** C7: on every buffer that starts with 0xFF, and for every collection,
    [DataObjectCollection.decode] returns an empty list and
    [DataObjectChoice.decode] returns None, both with the whole buffer as the
    remainder; no exception is raised and no object is written. *)
Theorem sentinel_stops_decoding (self : DataObjectCollection) (rest : bytes)
    (h : store) :
  DataObjectCollection_decode self (xff :: rest) h = (h, Ok ([], xff :: rest)) ∧
  DataObjectChoice_decode self (xff :: rest) h = (h, Ok (None, xff :: rest)).
Proof. split; reflexivity. Qed.

(** C10: with the [members] argument left out (None), the constructor of a
    DataObjectCollection, which a DataObjectChoice inherits, raises
    TypeError. *)
Theorem DataObjectCollection_init_without_members (name desc : option string)
    (h : store) :
  DataObjectCollection_init name desc None h = Raise TypeError ∧
  DataObjectChoice_init name desc None h = Raise TypeError.
Proof. split; reflexivity. Qed.

(** With a members list the constructor succeeds, and indexes each member
    under its tag and its name. *)
Example DataObjectCollection_init_example :
  DataObjectCollection_init None None (Some [0%nat; 1%nat]) example_store
  = Ok example_choice.
Proof. vm_compute. reflexivity. Qed.

(** * Further properties of the tag and length codecs *)

Lemma byte_val_inj (a b : byte) : byte_val a = byte_val b → a = b.
Proof.
  unfold byte_val. intros H. apply N2Z.inj in H.
  pose proof (Byte.of_to_N a) as Ha. rewrite H, Byte.of_to_N in Ha. congruence.
Qed.

Lemma byte_val_ff (b : byte) : byte_val b = 0xff ↔ b = xff.
Proof.
  split; [|by intros ->]. intros H. by apply byte_val_inj.
Qed.

Lemma byte_top_bit (b : byte) :
  truthy (Z.land (byte_val b) 0x80) = (0x80 <=? byte_val b).
Proof. by destruct b. Qed.

Lemma be_combine_nonneg (bs : bytes) (acc : Z) :
  0 <= acc → 0 <= be_combine acc bs.
Proof.
  revert acc. induction bs as [|b bs IH]; intros acc Hacc; simpl; [done|].
  apply IH. rewrite lor_shiftl_8 by apply byte_val_range.
  pose proof (byte_val_range b). lia.
Qed.

Lemma be_combine_cons_0 (b : byte) (l : bytes) :
  be_combine 0 (b :: l) = be_combine (byte_val b) l.
Proof.
  unfold be_combine. cbn [foldl]. by rewrite Z.shiftl_0_l, Z.lor_0_l.
Qed.

Lemma be_combine_app (acc : Z) (l1 l2 : bytes) :
  be_combine acc (l1 ++ l2) = be_combine (be_combine acc l1) l2.
Proof. unfold be_combine. apply foldl_app. Qed.

(** ** [bertlv_parse_tag_raw] *)

(** X1: the raw tag parser answers "no tag" exactly on the FF padding: a lone
    0xFF, or 0xFF followed by 0xFF; the input comes back untouched. *)
Theorem bertlv_parse_tag_raw_none_iff (binary rem : bytes) :
  bertlv_parse_tag_raw binary = Ok (None, rem) ↔
  rem = binary ∧ (binary = [xff] ∨ ∃ rest, binary = xff :: xff :: rest).
Proof.
  unfold bertlv_parse_tag_raw. split.
  - destruct binary as [|b0 rest]; [discriminate|].
    rewrite getitem_cons_0. cbn [mbind result_bind].
    destruct (Z.eqb_spec (byte_val b0) 0xff) as [Hff|Hne].
    + apply byte_val_ff in Hff as ->.
      destruct rest as [|b1 rest]; cbn [andb length Nat.eqb].
      { intros [= <-]. split; [done|by left]. }
      cbn [getitem lookup list_lookup mbind result_bind].
      destruct (Z.eqb_spec (byte_val b1) 0xff) as [Hff1|Hne1].
      { apply byte_val_ff in Hff1 as ->. intros [= <-].
        split; [done|right; by eexists]. }
      change (Z.land (byte_val xff) 31 <=? 30) with false. cbv iota.
      destruct (bertlv_parse_tag_raw_loop _ _) as [[??]| |]; discriminate.
    + cbn [andb mbind result_bind].
      destruct (Z.land (byte_val b0) 31 <=? 30); [discriminate|].
      destruct (bertlv_parse_tag_raw_loop _ _) as [[??]| |]; discriminate.
  - intros [-> [->|[rest ->]]]; reflexivity.
Qed.

Lemma bertlv_parse_tag_raw_loop_consumes (rest : bytes) (acc t : Z) (rem : bytes) :
  bertlv_parse_tag_raw_loop acc rest = Ok (t, rem) →
  ∃ mid, rest = mid ++ rem ∧ mid ≠ [] ∧ t = be_combine acc mid ∧
         ∀ acc', ∃ t', bertlv_parse_tag_loop acc' rest = Ok (t', rem).
Proof.
  revert acc. induction rest as [|b rest IH]; intros acc; [discriminate|].
  cbn [bertlv_parse_tag_raw_loop bertlv_parse_tag_loop].
  destruct (negb (truthy (Z.land (byte_val b) 128))).
  - intros [= <- <-]. exists [b]. split_and!; [done|done|done|].
    intros acc'. by eexists.
  - intros Hloop. apply IH in Hloop as (mid & -> & _ & -> & Hdict).
    exists (b :: mid). split_and!; [done|done|done|].
    intros acc'. apply Hdict.
Qed.

(** X2: a raw tag is the big-endian integer of the bytes it is made of, and the
    raw parser stops where [bertlv_parse_tag] stops. *)
Theorem bertlv_parse_tag_raw_consumes (binary : bytes) (t : Z) (rem : bytes) :
  bertlv_parse_tag_raw binary = Ok (Some t, rem) →
  ∃ pre d, binary = pre ++ rem ∧ pre ≠ [] ∧ t = int_from_bytes pre ∧
           bertlv_parse_tag binary = Ok (d, rem).
Proof.
  unfold bertlv_parse_tag_raw, bertlv_parse_tag, int_from_bytes.
  destruct binary as [|b0 rest]; [discriminate|].
  rewrite getitem_cons_0. cbn [mbind result_bind].
  destruct ((byte_val b0 =? 255) && (length (b0 :: rest) =? 1)%nat);
    [discriminate|].
  destruct (if byte_val b0 =? 255 then _ else _) as [[]| |];
    cbn [mbind result_bind]; try discriminate.
  destruct (Z.land (byte_val b0) 31 <=? 30).
  - intros [= <- <-]. exists [b0]. eexists. split_and!; try done.
    all: by rewrite be_combine_cons_0.
  - change (drop 1 (b0 :: rest)) with rest.
    destruct (bertlv_parse_tag_raw_loop _ _) as [[t' rem']| |] eqn:Hloop;
      cbn [mbind result_bind]; [|discriminate..].
    intros [= <- <-].
    apply bertlv_parse_tag_raw_loop_consumes in Hloop as (mid & Hmid & _ & -> & Hdict).
    destruct (Hdict 0) as [t'' Ht'']. rewrite Ht''. cbn [mbind result_bind].
    subst rest.
    exists (b0 :: mid). eexists. by rewrite be_combine_cons_0.
Qed.

Lemma bertlv_parse_tag_raw_consumes_witness :
  ∃ pre d, [x9f; x81; x07; x01] = pre ++ [x01] ∧ pre ≠ [] ∧
           0x9f8107 = int_from_bytes pre ∧
           bertlv_parse_tag [x9f; x81; x07; x01] = Ok (d, [x01]).
Proof.
  apply (bertlv_parse_tag_raw_consumes [x9f; x81; x07; x01] 0x9f8107 [x01]).
  reflexivity.
Defined.

(** ** [bertlv_parse_tag] *)

Lemma bertlv_parse_tag_loop_post (rest : bytes) (acc t : Z) (rem : bytes) :
  0 <= acc → bertlv_parse_tag_loop acc rest = Ok (t, rem) →
  0 <= t ∧ ∃ mid, rest = mid ++ rem ∧ mid ≠ [].
Proof.
  revert acc. induction rest as [|b rest IH]; intros acc Hacc; [discriminate|].
  cbn [bertlv_parse_tag_loop].
  assert (Hnn : 0 <= Z.lor (Z.shiftl acc 7) (Z.land (byte_val b) 127)).
  { apply Z.lor_nonneg. split; [by apply Z.shiftl_nonneg|].
    apply Z.land_nonneg. right. lia. }
  destruct (negb (truthy (Z.land (byte_val b) 128))).
  - intros [= <- <-]. split; [done|]. by exists [b].
  - intros Hloop. apply IH in Hloop as (Ht & mid & -> & _); [|done].
    split; [done|]. by exists (b :: mid).
Qed.

Lemma bertlv_parse_tag_consumes (binary : bytes) (d : BerTag) (rem : bytes) :
  bertlv_parse_tag binary = Ok (d, rem) →
  0 <= tag d ∧ ∃ pre, binary = pre ++ rem ∧ pre ≠ [].
Proof.
  unfold bertlv_parse_tag. destruct binary as [|b0 rest]; [discriminate|].
  rewrite getitem_cons_0. cbn [mbind result_bind].
  destruct (Z.land (byte_val b0) 31 <=? 30).
  - intros [= <- <-]. cbn [tag]. split.
    + apply Z.land_nonneg. right. lia.
    + by exists [b0].
  - change (drop 1 (b0 :: rest)) with rest.
    destruct (bertlv_parse_tag_loop 0 _) as [[t rem']| |] eqn:Hloop;
      cbn [mbind result_bind]; [|discriminate..].
    intros [= <- <-]. cbn [tag].
    apply bertlv_parse_tag_loop_post in Hloop as (Ht & mid & Hmid & _); [|lia].
    subst rest. split; [lia|]. by exists (b0 :: mid).
Qed.

(** X3: a parsed tag has a class in 0..3 and a non-negative number, and at least
    one byte was consumed: what is left is a proper end piece of the input. *)
Theorem bertlv_parse_tag_post (binary : bytes) (d : BerTag) (rem : bytes) :
  bertlv_parse_tag binary = Ok (d, rem) →
  0 <= cls d <= 3 ∧ 0 <= tag d ∧ ∃ pre, binary = pre ++ rem ∧ pre ≠ [].
Proof.
  intros Hparse. split; [|by eapply bertlv_parse_tag_consumes].
  revert Hparse. unfold bertlv_parse_tag.
  destruct binary as [|b0 rest]; [discriminate|].
  rewrite getitem_cons_0. cbn [mbind result_bind].
  assert (Hcls : 0 <= Z.shiftr (byte_val b0) 6 <= 3).
  { pose proof (byte_val_range b0). rewrite Z.shiftr_div_pow2 by lia.
    change (2 ^ 6) with 64. split.
    - apply Z.div_pos; lia.
    - apply Z.lt_succ_r, Z.div_lt_upper_bound; lia. }
  destruct (Z.land (byte_val b0) 31 <=? 30).
  - by intros [= <- <-].
  - destruct (bertlv_parse_tag_loop 0 _) as [[t rem']| |];
      cbn [mbind result_bind]; [|discriminate..].
    by intros [= <- <-].
Qed.

Lemma bertlv_parse_tag_post_witness :
  0 <= 2 <= 3 ∧ 0 <= 135 ∧ ∃ pre, [x9f; x81; x07; x01] = pre ++ [x01] ∧ pre ≠ [].
Proof.
  apply (bertlv_parse_tag_post [x9f; x81; x07; x01] (mkBerTag 2 false 135) [x01]).
  reflexivity.
Defined.

Lemma bertlv_parse_tag_loop_runs_out (conts : bytes) (acc : Z) :
  Forall (fun b => 0x80 <= byte_val b) conts →
  bertlv_parse_tag_loop acc conts = Raise IndexError.
Proof.
  intros Hall. revert acc. induction Hall as [|b conts Hb _ IH]; intros acc;
    [reflexivity|].
  cbn [bertlv_parse_tag_loop]. rewrite byte_top_bit.
  destruct (Z.leb_spec 0x80 (byte_val b)); [|lia]. apply IH.
Qed.

(** X4: a multi-byte tag whose continuation bytes run to the end of the buffer,
    every one with its top bit set (or with no byte at all after the leading
    one), raises IndexError. *)
Theorem bertlv_parse_tag_truncated (b0 : byte) (conts : bytes) :
  Z.land (byte_val b0) 0x1f = 0x1f →
  Forall (fun b => 0x80 <= byte_val b) conts →
  bertlv_parse_tag (b0 :: conts) = Raise IndexError.
Proof.
  intros Hb0 Hall. unfold bertlv_parse_tag. rewrite getitem_cons_0.
  cbn [mbind result_bind]. rewrite Hb0. change (31 <=? 30) with false.
  cbv iota. change (drop 1 (b0 :: conts)) with conts.
  by rewrite bertlv_parse_tag_loop_runs_out.
Qed.

Lemma bertlv_parse_tag_truncated_witness :
  bertlv_parse_tag [x9f; x81; x82] = Raise IndexError.
Proof.
  apply (bertlv_parse_tag_truncated x9f [x81; x82]).
  - reflexivity.
  - repeat constructor; vm_compute; discriminate.
Defined.

(** ** [bertlv_parse_len] *)

Lemma bertlv_parse_len_cut (b0 : byte) (rest : bytes) :
  0x80 <= byte_val b0 →
  (length rest < Z.to_nat (Z.land (byte_val b0) 0x7f))%nat →
  bertlv_parse_len (b0 :: rest) = Ok (0, []).
Proof.
  intros Hb Hlen. unfold bertlv_parse_len. rewrite getitem_cons_0.
  cbn [mbind result_bind]. destruct (Z.ltb_spec (byte_val b0) 0x80); [lia|].
  destruct (Nat.ltb_spec (length (b0 :: rest))
              (Z.to_nat (Z.land (byte_val b0) 0x7f) + 1)) as [_|Hge];
    [reflexivity|].
  simpl in Hge. lia.
Qed.

Lemma bertlv_parse_len_suffix (binary : bytes) (n : Z) (rem : bytes) :
  bertlv_parse_len binary = Ok (n, rem) → 0 <= n ∧ rem `suffix_of` binary.
Proof.
  destruct binary as [|b0 rest]; [discriminate|].
  destruct (Z.lt_ge_cases (byte_val b0) 0x80) as [Hs|Hl].
  - rewrite bertlv_parse_len_short by done. intros [= <- <-].
    pose proof (byte_val_range b0). split; [lia|]. by apply suffix_cons_r.
  - destruct (Nat.le_gt_cases (Z.to_nat (Z.land (byte_val b0) 0x7f)) (length rest))
      as [Hle|Hgt].
    + rewrite bertlv_parse_len_long by (done || lia). intros [= <- <-].
      split; [by apply be_combine_nonneg|apply suffix_cons_r, suffix_drop].
    + rewrite bertlv_parse_len_cut by (done || lia). intros [= <- <-].
      split; [done|apply suffix_nil].
Qed.

(** X5: a parsed length is never negative, at least one byte was consumed, and
    what is left is an end piece of the input. *)
Theorem bertlv_parse_len_post (binary : bytes) (n : Z) (rem : bytes) :
  bertlv_parse_len binary = Ok (n, rem) →
  0 <= n ∧ (length rem < length binary)%nat ∧ rem `suffix_of` binary.
Proof.
  intros Hparse.
  destruct (bertlv_parse_len_suffix _ _ _ Hparse) as [Hn Hsuf].
  split_and!; [done| |done]. revert Hparse.
  destruct binary as [|b0 rest]; [discriminate|].
  destruct (Z.lt_ge_cases (byte_val b0) 0x80) as [Hs|Hl].
  - rewrite bertlv_parse_len_short by done. intros [= _ <-]. simpl. lia.
  - destruct (Nat.le_gt_cases (Z.to_nat (Z.land (byte_val b0) 0x7f)) (length rest))
      as [Hle|Hgt].
    + rewrite bertlv_parse_len_long by (done || lia). intros [= _ <-].
      rewrite length_drop. simpl. lia.
    + rewrite bertlv_parse_len_cut by (done || lia). intros [= _ <-]. simpl. lia.
Qed.

Lemma bertlv_parse_len_post_witness :
  0 <= 258 ∧ (length [x03] < length [x82; x01; x02; x03])%nat ∧
  [x03] `suffix_of` [x82; x01; x02; x03].
Proof.
  apply (bertlv_parse_len_post [x82; x01; x02; x03] 258 [x03]). reflexivity.
Defined.

(** ** Lengths followed by more data *)

Lemma bertlv_parse_len_be_bytes_app (b0 : byte) (k : nat) (n : Z) (rest : bytes) :
  0x80 <= byte_val b0 →
  Z.to_nat (Z.land (byte_val b0) 0x7f) = k →
  0 <= n < 256 ^ Z.of_nat k →
  bertlv_parse_len (b0 :: be_bytes k n ++ rest) = Ok (n, rest).
Proof.
  intros Hb Hk Hn.
  rewrite bertlv_parse_len_long by (rewrite ?length_app, ?length_be_bytes; lia).
  rewrite Hk.
  rewrite take_app_length', drop_app_length' by (by rewrite length_be_bytes).
  rewrite be_combine_be_bytes, Z.mod_small by lia. reflexivity.
Qed.

Lemma bertlv_encode_len_parse_app (n : Z) (rest : bytes) :
  0 <= n <= 0xffffffff →
  ∃ b, bertlv_encode_len n = Ok b ∧
       bertlv_parse_len (b ++ rest) = Ok (n, rest) ∧
       length b = if n <? 0x80 then 1%nat else if n <=? 0xff then 2%nat
                  else if n <=? 0xffff then 3%nat
                  else if n <=? 0xffffff then 4%nat else 5%nat.
Proof.
  unfold bertlv_encode_len, int_to_bytes.
  intros Hn. destruct (Z.ltb_spec n 0) as [?|_]; [lia|].
  destruct (Z.ltb_spec n 0x80) as [H1|H1].
  { destruct (Z.leb_spec (256 ^ Z.of_nat 1) n) as [H|_]; [simpl in H; lia|].
    eexists. split; [done|]. split; [|done]. cbn [be_bytes app].
    rewrite bertlv_parse_len_short; rewrite byte_val_low_byte;
      rewrite Z.shiftr_0_r, Z.mod_small by lia; [done|lia]. }
  destruct (Z.leb_spec n 0xff) as [H2|H2].
  { destruct (Z.leb_spec (256 ^ Z.of_nat 1) n) as [H|_]; [simpl in H; lia|].
    eexists. split; [done|]. split; [|done].
    apply (bertlv_parse_len_be_bytes_app x81 1); [done|done|simpl; lia]. }
  destruct (Z.leb_spec n 0xffff) as [H3|H3].
  { destruct (Z.leb_spec (256 ^ Z.of_nat 2) n) as [H|_]; [simpl in H; lia|].
    eexists. split; [done|]. split; [|done].
    apply (bertlv_parse_len_be_bytes_app x82 2); [done|done|simpl; lia]. }
  destruct (Z.leb_spec n 0xffffff) as [H4|H4].
  { destruct (Z.leb_spec (256 ^ Z.of_nat 3) n) as [H|_]; [simpl in H; lia|].
    eexists. split; [done|]. split; [|done].
    apply (bertlv_parse_len_be_bytes_app x83 3); [done|done|simpl; lia]. }
  destruct (Z.leb_spec n 0xffffffff) as [H5|H5]; [|lia].
  destruct (Z.leb_spec (256 ^ Z.of_nat 4) n) as [H|_]; [simpl in H; lia|].
  eexists. split; [done|]. split; [|done].
  apply (bertlv_parse_len_be_bytes_app x84 4); [done|done|simpl; lia].
Qed.

(** X6: [bertlv_encode_len] raises OverflowError on a negative length; on a
    length up to 0xFFFFFFFF it picks the shortest of its five forms, and the
    parser reads the length back from the front of any buffer that starts
    with the encoding, leaving what follows. *)
Theorem bertlv_len_roundtrip_app (n : Z) (rest : bytes) :
  (n < 0 → bertlv_encode_len n = Raise OverflowError) ∧
  (0 <= n <= 0xffffffff →
   ∃ b, bertlv_encode_len n = Ok b ∧
        bertlv_parse_len (b ++ rest) = Ok (n, rest) ∧
        length b = if n <? 0x80 then 1%nat else if n <=? 0xff then 2%nat
                   else if n <=? 0xffff then 3%nat
                   else if n <=? 0xffffff then 4%nat else 5%nat).
Proof.
  split; [|apply bertlv_encode_len_parse_app].
  intros Hn. unfold bertlv_encode_len, int_to_bytes.
  destruct (Z.ltb_spec n 0x80); [|lia].
  by destruct (Z.ltb_spec n 0); [|lia].
Qed.

Lemma bertlv_len_roundtrip_app_witness :
  bertlv_encode_len (-1) = Raise OverflowError ∧
  ∃ b, bertlv_encode_len 300 = Ok b ∧
       bertlv_parse_len (b ++ [xaa]) = Ok (300, [xaa]) ∧ length b = 3%nat.
Proof.
  split.
  - apply (bertlv_len_roundtrip_app (-1) []). lia.
  - apply (bertlv_len_roundtrip_app 300 [xaa]). lia.
Defined.

(** ** [bertlv_parse_one] *)

(** X7: the record reader never hands out more value bytes than the length
    announces; value and remainder together are an end piece of the input;
    and when fewer bytes than announced are there, the value is cut at the
    end of the buffer and nothing remains. *)
Theorem bertlv_parse_one_post (binary : bytes) (t : BerTag) (n : Z)
    (value rem : bytes) :
  bertlv_parse_one binary = Ok (t, n, value, rem) →
  0 <= n ∧ Z.of_nat (length value) <= n ∧
  (value ++ rem) `suffix_of` binary ∧
  (Z.of_nat (length value) < n → rem = []).
Proof.
  unfold bertlv_parse_one.
  destruct (bertlv_parse_tag binary) as [[d r1]| |] eqn:Htag;
    cbn [mbind result_bind]; [|discriminate..].
  destruct (bertlv_parse_len r1) as [[n' r2]| |] eqn:Hlen;
    cbn [mbind result_bind]; [|discriminate..].
  intros [= <- <- <- <-].
  apply bertlv_parse_tag_consumes in Htag as (_ & pre & -> & _).
  apply bertlv_parse_len_suffix in Hlen as (Hn & Hsuf).
  split_and!.
  - done.
  - rewrite length_take. lia.
  - rewrite take_drop. by apply suffix_app_r.
  - rewrite length_take. intros Hlt. apply drop_ge. lia.
Qed.

Lemma bertlv_parse_one_post_witness :
  0 <= 3 ∧ Z.of_nat (length [x01; x01]) <= 3 ∧
  ([x01; x01] ++ []) `suffix_of` [x30; x03; x01; x01] ∧
  (Z.of_nat (length [x01; x01]) < 3 → [] = ([] : bytes)).
Proof.
  apply (bertlv_parse_one_post [x30; x03; x01; x01] (mkBerTag 0 true 16)).
  reflexivity.
Defined.

Lemma bertlv_tag_roundtrip_small_app (fuel : nat) (c : Z) (constr : bool)
    (number : Z) (rest : bytes) :
  0 <= c <= 3 → 0 <= number <= 127 →
  ∃ tb, bertlv_encode_tag (S fuel) (TagDict (mkBerTag c constr number)) = Ok tb ∧
        bertlv_parse_tag (tb ++ rest) = Ok (mkBerTag c constr number, rest).
Proof.
  intros Hc Hn.
  assert (Hc' : ∃ k : nat, c = Z.of_nat k ∧ (k < 4)%nat)
    by (exists (Z.to_nat c); lia).
  assert (Hn' : ∃ k : nat, number = Z.of_nat k ∧ (k < 128)%nat)
    by (exists (Z.to_nat number); lia).
  destruct Hc' as (kc & -> & Hkc). destruct Hn' as (kn & -> & Hkn).
  clear Hc Hn.
  destruct kc as [|[|[|[|kc]]]]; [| | | |lia]; clear Hkc;
    destruct constr;
    (do 128 (destruct kn as [|kn]; [eexists; split; reflexivity|]); lia).
Qed.

(** X8: a record written as encoded tag, encoded length and value is read back
    by [bertlv_parse_one] as that tag, that length and that value, with what
    follows as the remainder (tag numbers up to 127, where the tag encoder is
    sound). *)
Theorem bertlv_parse_one_roundtrip (fuel : nat) (c : Z) (constr : bool)
    (number : Z) (value rest : bytes) :
  0 <= c <= 3 → 0 <= number <= 127 → Z.of_nat (length value) <= 0xffffffff →
  ∃ tb lb,
    bertlv_encode_tag (S fuel) (TagDict (mkBerTag c constr number)) = Ok tb ∧
    bertlv_encode_len (Z.of_nat (length value)) = Ok lb ∧
    bertlv_parse_one (tb ++ lb ++ value ++ rest)
    = Ok (mkBerTag c constr number, Z.of_nat (length value), value, rest).
Proof.
  intros Hc Hn Hv.
  destruct (bertlv_tag_roundtrip_small_app fuel c constr number [] Hc Hn)
    as (tb & Htb & _).
  destruct (bertlv_encode_len_parse_app (Z.of_nat (length value))
              (value ++ rest) ltac:(lia)) as (lb & Hlb & Hparse & _).
  exists tb, lb. split_and!; [done|done|].
  destruct (bertlv_tag_roundtrip_small_app fuel c constr number
              (lb ++ value ++ rest) Hc Hn) as (tb' & Htb' & Htag).
  assert (tb' = tb) as -> by congruence.
  unfold bertlv_parse_one. rewrite Htag. cbn [mbind result_bind].
  rewrite Hparse. cbn [mbind result_bind].
  by rewrite Nat2Z.id, take_app_length, drop_app_length.
Qed.

Lemma bertlv_parse_one_roundtrip_witness :
  ∃ tb lb,
    bertlv_encode_tag 1 (TagDict (mkBerTag 0 true 16)) = Ok tb ∧
    bertlv_encode_len (Z.of_nat (length [x01; x01; x01])) = Ok lb ∧
    bertlv_parse_one (tb ++ lb ++ [x01; x01; x01] ++ [xff])
    = Ok (mkBerTag 0 true 16, Z.of_nat (length [x01; x01; x01]),
          [x01; x01; x01], [xff]).
Proof.
  apply (bertlv_parse_one_roundtrip 0 0 true 16 [x01; x01; x01] [xff]);
    simpl; lia.
Defined.

(** ** COMPREHENSION-TLV tags: encoder and parsers together *)

Lemma reserved_first_byte (n : Z) :
  bool_decide (n ∈ [0x00; 0x80; 0xff]) = (n =? 0) || (n =? 0x80) || (n =? 0xff).
Proof.
  case_bool_decide as Hin.
  - rewrite !elem_of_cons, elem_of_nil in Hin.
    destruct Hin as [->|[->|[->|[]]]]; reflexivity.
  - rewrite !elem_of_cons, elem_of_nil in Hin.
    destruct (Z.eqb_spec n 0); [tauto|].
    destruct (Z.eqb_spec n 0x80); [tauto|].
    destruct (Z.eqb_spec n 0xff); [tauto|]. reflexivity.
Qed.

(** X9: both parsers refuse the same inputs with the same exception, and on the
    inputs they accept they consume the same bytes. *)
Theorem comprehensiontlv_parsers_agree (binary : bytes) :
  match comprehensiontlv_parse_tag_raw binary, comprehensiontlv_parse_tag binary with
  | Ok (Some _, rem), Ok (_, rem') => rem = rem'
  | Raise e, Raise e' => e = e'
  | _, _ => False
  end.
Proof.
  unfold comprehensiontlv_parse_tag_raw, comprehensiontlv_parse_tag.
  destruct binary as [|b0 rest]; [done|].
  rewrite getitem_cons_0. cbn [mbind result_bind].
  case_bool_decide as Hin; [done|].
  destruct (Z.eqb_spec (byte_val b0) 0x7f).
  - destruct rest as [|b1 [|b2 rest]]; done.
  - destruct (Z.eqb_spec (byte_val b0) 0xff) as [Hff|]; [|done].
    apply Hin. rewrite Hff. set_solver.
Qed.

(** The facts about a 7-bit value and the comprehension bit that the tag
    codec relies on. *)
Lemma seven_bits (x : Z) :
  0 <= x < 128 →
  Z.land x 0x7f = x ∧ Z.land x 0x80 = 0 ∧
  Z.land (Z.lor x 0x80) 0x7f = x ∧ Z.land (Z.lor x 0x80) 0x80 = 0x80 ∧
  Z.lor x 0x80 = x + 128.
Proof.
  intros Hx.
  assert (Hk : ∃ k : nat, x = Z.of_nat k ∧ (k < 128)%nat)
    by (exists (Z.to_nat x); lia).
  destruct Hk as (k & -> & Hk).
  do 128 (destruct k as [|k]; [by repeat split|]). lia.
Qed.

Lemma int_to_bytes_1 (z : Z) :
  0 <= z < 256 → int_to_bytes z 1 = Ok [low_byte z].
Proof.
  intros Hz. unfold int_to_bytes.
  destruct (Z.ltb_spec z 0) as [?|_]; [lia|].
  destruct (Z.leb_spec (256 ^ Z.of_nat 1) z) as [Hbig|_]; [simpl in Hbig; lia|].
  cbn [be_bytes]. by rewrite Z.shiftr_0_r.
Qed.

(** X10: the tag written by [comprehensiontlv_encode_tag] for a dict is read back
    by [comprehensiontlv_parse_tag], comprehension flag and number alike, from
    the front of any buffer, for the numbers 1..0x7E (one byte) and for 0,
    0x80, 0xFF and 0x100..0x7FFF (three bytes). *)
Theorem comprehensiontlv_tag_roundtrip (c : bool) (n : Z) (rest : bytes) :
  1 <= n <= 0x7e ∨ n = 0 ∨ n = 0x80 ∨ n = 0xff ∨ 0x100 <= n <= 0x7fff →
  ∃ b, comprehensiontlv_encode_tag (ComprDict (mkComprTag c n)) = Ok b ∧
       comprehensiontlv_parse_tag (b ++ rest) = Ok (mkComprTag c n, rest).
Proof.
  intros Hn. unfold comprehensiontlv_encode_tag. cbn [comprehension compr_tag].
  rewrite reserved_first_byte.
  destruct (Z.eqb_spec n 0) as [->|H0];
    [destruct c; eexists; split; reflexivity|].
  destruct (Z.eqb_spec n 0x80) as [->|H80];
    [destruct c; eexists; split; reflexivity|].
  destruct (Z.eqb_spec n 0xff) as [->|Hff];
    [destruct c; eexists; split; reflexivity|].
  cbn [orb]. destruct (Z.ltb_spec 0xff n) as [Hbig|Hsmall].
  - (* 3-byte format *)
    assert (Hrange : 0x100 <= n <= 0x7fff) by lia. clear Hn.
    assert (Hhi : Z.land (Z.shiftr n 8) 0x7f = n / 256).
    { change 0x7f with (Z.ones 7). rewrite Z.land_ones by lia.
      rewrite Z.shiftr_div_pow2 by lia. change (2 ^ 8) with 256.
      apply Z.mod_small. split; [apply Z.div_pos; lia|].
      apply Z.div_lt_upper_bound; lia. }
    assert (Hlo : Z.land n 0xff = n mod 256).
    { change 0xff with (Z.ones 8). by rewrite Z.land_ones by lia. }
    assert (Hhir : 0 <= n / 256 < 128).
    { split; [apply Z.div_pos; lia|apply Z.div_lt_upper_bound; lia]. }
    assert (Hlor : 0 <= n mod 256 < 256) by (apply Z.mod_pos_bound; lia).
    destruct (seven_bits (n / 256) Hhir) as (H1 & H2 & H3 & H4 & H5).
    rewrite Hhi, Hlo.
    set (byte2 := if c then Z.lor (n / 256) 0x80 else n / 256).
    assert (Hb2 : 0 <= byte2 < 256) by (subst byte2; destruct c; lia).
    rewrite (int_to_bytes_1 byte2 Hb2), (int_to_bytes_1 (n mod 256) Hlor).
    cbn [mbind result_bind]. eexists. split; [reflexivity|].
    unfold comprehensiontlv_parse_tag.
    cbn [app getitem lookup list_lookup mbind result_bind].
    change (bool_decide (byte_val x7f ∈ [0; 128; 255])) with false.
    change (byte_val x7f =? 127) with true. cbv iota.
    rewrite !byte_val_low_byte, !Z.mod_small by lia.
    rewrite lor_shiftl_8 by lia.
    assert (Htag : Z.land byte2 127 = n / 256) by (subst byte2; by destruct c).
    assert (Hc : truthy (Z.land byte2 128) = c)
      by (subst byte2; destruct c; [by rewrite H4|by rewrite H2]).
    rewrite Htag, Hc. do 3 f_equal.
    rewrite (Z.div_mod n 256) at 3 by lia. lia.
  - (* 1-byte format *)
    assert (Hrange : 1 <= n <= 0x7e) by lia. clear Hn.
    assert (Hseven : 0 <= n < 128) by lia.
    destruct (seven_bits n Hseven) as (H1 & H2 & H3 & H4 & H5).
    set (ret := if c then Z.lor n 0x80 else n).
    assert (Hret : 0 <= ret < 256) by (subst ret; destruct c; lia).
    rewrite (int_to_bytes_1 ret Hret). eexists. split; [reflexivity|].
    unfold comprehensiontlv_parse_tag.
    cbn [app getitem lookup list_lookup mbind result_bind].
    rewrite byte_val_low_byte, Z.mod_small by lia.
    rewrite reserved_first_byte.
    assert (Hne : (ret =? 0) || (ret =? 128) || (ret =? 255) = false).
    { subst ret. destruct c; [rewrite H5|];
        rewrite !orb_false_iff; repeat split; apply Z.eqb_neq; lia. }
    rewrite Hne.
    destruct (Z.eqb_spec ret 127) as [H127|_];
      [subst ret; destruct c; lia|].
    assert (Htag : Z.land ret 127 = n) by (subst ret; by destruct c).
    assert (Hc : truthy (Z.land ret 128) = c)
      by (subst ret; destruct c; [by rewrite H4|by rewrite H2]).
    by rewrite Htag, Hc.
Qed.

Lemma comprehensiontlv_tag_roundtrip_witness :
  ∃ b, comprehensiontlv_encode_tag (ComprDict (mkComprTag true 0x1234)) = Ok b ∧
       comprehensiontlv_parse_tag (b ++ [xaa]) = Ok (mkComprTag true 0x1234, [xaa]).
Proof. apply (comprehensiontlv_tag_roundtrip true 0x1234 [xaa]). lia. Defined.

(** X11: for the numbers 0x81..0xFE the encoder writes the number itself as the
    single tag byte, whatever the comprehension flag it was given; that byte
    parses as comprehension = True and the number less 0x80. *)
Theorem comprehensiontlv_encode_tag_high_numbers (c : bool) (n : Z) (rest : bytes) :
  0x81 <= n <= 0xfe →
  comprehensiontlv_encode_tag (ComprDict (mkComprTag c n)) = Ok [low_byte n] ∧
  comprehensiontlv_parse_tag (low_byte n :: rest)
  = Ok (mkComprTag true (n - 0x80), rest).
Proof.
  intros Hn.
  assert (Hk : ∃ k : nat, n = 0x81 + Z.of_nat k ∧ (k < 126)%nat)
    by (exists (Z.to_nat (n - 0x81)); lia).
  destruct Hk as (k & -> & Hk). clear Hn.
  destruct c; (do 126 (destruct k as [|k]; [split; reflexivity|]); lia).
Qed.

Lemma comprehensiontlv_encode_tag_high_numbers_witness :
  comprehensiontlv_encode_tag (ComprDict (mkComprTag false 0x81)) = Ok [low_byte 0x81] ∧
  comprehensiontlv_parse_tag (low_byte 0x81 :: [])
  = Ok (mkComprTag true (0x81 - 0x80), []).
Proof. apply (comprehensiontlv_encode_tag_high_numbers false 0x81 []). lia. Defined.

(** ** DGI tags and lengths *)

Lemma be_combine_2 (b1 b2 : byte) :
  be_combine 0 [b1; b2] = Z.lor (Z.shiftl (byte_val b1) 8) (byte_val b2).
Proof.
  unfold be_combine. cbn [foldl]. by rewrite Z.shiftl_0_l, Z.lor_0_l.
Qed.

(** X12: A DGI tag is any int that fits two bytes: [dgi_parse_tag_raw] reads back
    what [dgi_encode_tag] wrote, from the front of any buffer; every other
    int makes the encoder raise OverflowError. *)
Theorem dgi_tag_roundtrip (t : Z) (rest : bytes) :
  (0 <= t <= 0xffff →
   ∃ b, dgi_encode_tag t = Ok b ∧ length b = 2%nat ∧
        dgi_parse_tag_raw (b ++ rest) = (t, rest)) ∧
  (t < 0 ∨ 0xffff < t → dgi_encode_tag t = Raise OverflowError).
Proof.
  unfold dgi_encode_tag, int_to_bytes. split.
  - intros Ht. destruct (Z.ltb_spec t 0) as [?|_]; [lia|].
    destruct (Z.leb_spec (256 ^ Z.of_nat 2) t) as [Hbig|_]; [simpl in Hbig; lia|].
    eexists. split; [done|]. split; [by rewrite length_be_bytes|].
    unfold dgi_parse_tag_raw, int_from_bytes.
    rewrite take_app_length', drop_app_length' by (by rewrite length_be_bytes).
    rewrite be_combine_be_bytes, Z.mod_small by (simpl; lia). f_equal; lia.
  - intros Ht. destruct (Z.ltb_spec t 0) as [?|Hpos]; [done|].
    destruct (Z.leb_spec (256 ^ Z.of_nat 2) t) as [_|Hsmall]; [done|].
    simpl in Hsmall. lia.
Qed.

Lemma dgi_tag_roundtrip_witness :
  (∃ b, dgi_encode_tag 0x8001 = Ok b ∧ length b = 2%nat ∧
        dgi_parse_tag_raw (b ++ [xaa]) = (0x8001, [xaa])) ∧
  dgi_encode_tag 0x10000 = Raise OverflowError.
Proof.
  split.
  - apply (dgi_tag_roundtrip 0x8001 [xaa]). lia.
  - apply (dgi_tag_roundtrip 0x10000 []). lia.
Defined.

(** X13: A DGI length up to 0xFFFF is read back by [dgi_parse_len] from the front
    of any buffer: one byte below 255, the escape 0xFF and two bytes from 255
    on.  A negative length raises OverflowError, a length above 0xFFFF
    ValueError. *)
Theorem dgi_len_roundtrip (n : Z) (rest : bytes) :
  (0 <= n <= 0xffff →
   ∃ b, dgi_encode_len n = Ok b ∧
        length b = (if n <? 255 then 1%nat else 3%nat) ∧
        dgi_parse_len (b ++ rest) = Asserted (Ok (n, rest))) ∧
  (n < 0 → dgi_encode_len n = Raise OverflowError) ∧
  (0xffff < n → dgi_encode_len n = Raise ValueError).
Proof.
  unfold dgi_encode_len, int_to_bytes. split_and!.
  - intros Hn. destruct (Z.ltb_spec n 0) as [?|_]; [lia|].
    destruct (Z.ltb_spec n 255) as [H1|H1].
    + destruct (Z.leb_spec (256 ^ Z.of_nat 1) n) as [Hbig|_]; [simpl in Hbig; lia|].
      eexists. split; [done|]. split; [done|].
      unfold dgi_parse_len. cbn [be_bytes app getitem lookup list_lookup].
      rewrite byte_val_low_byte, Z.shiftr_0_r, Z.mod_small by lia.
      destruct (Z.eqb_spec n 255); [lia|]. done.
    + destruct (Z.leb_spec n 0xffff) as [_|?]; [|lia].
      destruct (Z.leb_spec (256 ^ Z.of_nat 2) n) as [Hbig|_]; [simpl in Hbig; lia|].
      eexists. split; [done|]. split; [done|].
      unfold dgi_parse_len.
      cbn [mbind result_bind be_bytes app getitem lookup list_lookup length Nat.leb].
      change (byte_val xff =? 255) with true. cbv iota.
      rewrite <- be_combine_2.
      change [low_byte (Z.shiftr n (8 * Z.of_nat 1));
              low_byte (Z.shiftr n (8 * Z.of_nat 0))] with (be_bytes 2 n).
      rewrite be_combine_be_bytes, Z.mod_small by (simpl; lia).
      do 3 f_equal; lia.
  - intros Hn. destruct (Z.ltb_spec n 255); [|lia].
    by destruct (Z.ltb_spec n 0); [|lia].
  - intros Hn. destruct (Z.ltb_spec n 255); [lia|].
    by destruct (Z.leb_spec n 0xffff); [lia|].
Qed.

Lemma dgi_len_roundtrip_witness :
  (∃ b, dgi_encode_len 255 = Ok b ∧ length b = 3%nat ∧
        dgi_parse_len (b ++ [xaa]) = Asserted (Ok (255, [xaa]))) ∧
  dgi_encode_len (-1) = Raise OverflowError ∧
  dgi_encode_len 0x10000 = Raise ValueError.
Proof.
  split_and!.
  - apply (dgi_len_roundtrip 255 [xaa]). lia.
  - apply (dgi_len_roundtrip (-1) []). lia.
  - apply (dgi_len_roundtrip 0x10000 []). lia.
Defined.

(** X14: [dgi_parse_len] fails its assertion exactly on the escape byte 0xFF with
    fewer than two bytes behind it, and raises IndexError exactly on the
    empty buffer; it never reads past the end. *)
Theorem dgi_parse_len_failures (binary : bytes) :
  (dgi_parse_len binary = AssertionError ↔
   ∃ rest, binary = xff :: rest ∧ (length rest < 2)%nat) ∧
  (dgi_parse_len binary = Asserted (Raise IndexError) ↔ binary = []) ∧
  (∀ e, dgi_parse_len binary = Asserted (Raise e) → e = IndexError).
Proof.
  unfold dgi_parse_len. destruct binary as [|b0 rest].
  - split_and!; [|done|by intros e [= <-]].
    split; [done|]. by intros (rest & [=] & _).
  - rewrite getitem_cons_0.
    destruct (Z.eqb_spec (byte_val b0) 255) as [Hff|Hne].
    + apply byte_val_ff in Hff as ->.
      destruct rest as [|b1 [|b2 rest]]; cbn [length Nat.leb];
        split_and!; try done.
      * split; [|done]. intros _. exists []. simpl. split; [done|lia].
      * split; [|done]. intros _. exists [b1]. simpl. split; [done|lia].
      * split; [done|]. intros (rest' & [= <-] & Hlen). simpl in Hlen. lia.
    + split_and!; try done.
      split; [done|]. intros (rest' & [= -> _] & _). exfalso. by apply Hne.
Qed.

(** ** The int argument of [bertlv_encode_tag] *)

Lemma count_int_bytes_loop_spec (fuel i : nat) (inp : Z) :
  0 <= inp < 2 ^ Z.of_nat fuel →
  ∃ k : nat, count_int_bytes_loop fuel i inp = Ok (i + k)%nat ∧
             inp < 256 ^ Z.of_nat k ∧
             ((0 < k)%nat → 256 ^ Z.of_nat (k - 1) <= inp).
Proof.
  revert i inp. induction fuel as [|fuel IH]; intros i inp Hinp.
  - assert (inp = 0) as -> by (simpl in Hinp; lia).
    exists 0%nat. cbn. split_and!; [f_equal; lia|lia|lia].
  - cbn [count_int_bytes_loop]. unfold truthy.
    destruct (Z.eqb_spec inp 0) as [->|Hne]; cbn [negb].
    { exists 0%nat. split_and!; [f_equal; lia|simpl; lia|lia]. }
    assert (Hshift : 0 <= Z.shiftr inp 8 < 2 ^ Z.of_nat fuel).
    { rewrite Z.shiftr_div_pow2 by lia. change (2 ^ 8) with 256. split.
      - apply Z.div_pos; lia.
      - apply Z.div_lt_upper_bound; [lia|].
        rewrite Nat2Z.inj_succ, Z.pow_succ_r in Hinp by lia.
        assert (0 < 2 ^ Z.of_nat fuel) by (apply Z.pow_pos_nonneg; lia). lia. }
    destruct (IH (S i) _ Hshift) as (k & Hk & Hlt & Hge).
    exists (S k). split_and!.
    + rewrite Hk. f_equal. lia.
    + rewrite Z.shiftr_div_pow2 in Hlt by lia. change (2 ^ 8) with 256 in Hlt.
      rewrite Nat2Z.inj_succ, Z.pow_succ_r by lia.
      pose proof (Z.div_mod inp 256 ltac:(lia)).
      pose proof (Z.mod_pos_bound inp 256 ltac:(lia)). nia.
    + intros _. replace (S k - 1)%nat with k by lia.
      rewrite Z.shiftr_div_pow2 in Hge by lia. change (2 ^ 8) with 256 in Hge.
      destruct k as [|k].
      * simpl. lia.
      * specialize (Hge ltac:(lia)). replace (S k - 1)%nat with k in Hge by lia.
        rewrite Nat2Z.inj_succ, Z.pow_succ_r by lia.
        pose proof (Z.div_mod inp 256 ltac:(lia)).
        pose proof (Z.mod_pos_bound inp 256 ltac:(lia)). nia.
Qed.

Lemma count_int_bytes_nonneg (fuel : nat) (t : Z) :
  0 <= t < 2 ^ Z.of_nat fuel →
  ∃ n : nat, count_int_bytes fuel t = Ok n ∧ (1 ≤ n)%nat ∧
             t < 256 ^ Z.of_nat n ∧
             ((1 < n)%nat → 256 ^ Z.of_nat (n - 1) <= t) ∧
             int_to_bytes t n = Ok (be_bytes n t).
Proof.
  intros Ht. unfold count_int_bytes.
  assert (Hshift : 0 <= Z.shiftr t 8 < 2 ^ Z.of_nat fuel).
  { rewrite Z.shiftr_div_pow2 by lia. change (2 ^ 8) with 256. split.
    - apply Z.div_pos; lia.
    - apply Z.div_lt_upper_bound; lia. }
  destruct (count_int_bytes_loop_spec fuel 1 _ Hshift) as (k & Hk & Hlt & Hge).
  rewrite Z.shiftr_div_pow2 in Hlt, Hge by lia.
  change (2 ^ 8) with 256 in Hlt, Hge.
  pose proof (Z.div_mod t 256 ltac:(lia)).
  pose proof (Z.mod_pos_bound t 256 ltac:(lia)).
  assert (Hn : t < 256 ^ Z.of_nat (1 + k)).
  { rewrite Nat2Z.inj_add, Z.pow_add_r by lia. change (256 ^ Z.of_nat 1) with 256.
    nia. }
  exists (1 + k)%nat. split_and!; [done|lia|done| |].
  - intros Hk1. replace (1 + k - 1)%nat with (S (k - 1)) by lia.
    specialize (Hge ltac:(lia)). rewrite Nat2Z.inj_succ, Z.pow_succ_r by lia. nia.
  - unfold int_to_bytes. destruct (Z.ltb_spec t 0); [lia|].
    by destruct (Z.leb_spec (256 ^ Z.of_nat (1 + k)) t); [lia|].
Qed.

Lemma count_int_bytes_loop_negative (fuel i : nat) (inp : Z) :
  inp < 0 → count_int_bytes_loop fuel i inp = OutOfFuel.
Proof.
  revert i inp. induction fuel as [|fuel IH]; intros i inp Hinp;
    cbn [count_int_bytes_loop]; unfold truthy;
    (destruct (Z.eqb_spec inp 0); [lia|]); cbn [negb]; [done|].
  apply IH. by apply Z.shiftr_neg.
Qed.

(** X15: for a non-negative int and enough fuel, [count_int_bytes] returns the
    least number of bytes (at least one) the int fits in, so the conversion
    [t.to_bytes(tag_size, 'big')] that follows cannot overflow.  On a negative
    int the loop of [count_int_bytes] never ends (shifting a negative int
    right never reaches 0), and neither does [bertlv_encode_tag] on it. *)
Theorem count_int_bytes_spec (fuel : nat) (t : Z) :
  (0 <= t < 2 ^ Z.of_nat fuel →
   ∃ n : nat, count_int_bytes fuel t = Ok n ∧ (1 ≤ n)%nat ∧
              t < 256 ^ Z.of_nat n ∧
              ((1 < n)%nat → 256 ^ Z.of_nat (n - 1) <= t) ∧
              int_to_bytes t n = Ok (be_bytes n t)) ∧
  (t < 0 →
   count_int_bytes fuel t = OutOfFuel ∧
   bertlv_encode_tag fuel (TagInt t) = OutOfFuel).
Proof.
  split; [apply count_int_bytes_nonneg|].
  intros Ht.
  assert (Hcount : count_int_bytes fuel t = OutOfFuel).
  { unfold count_int_bytes.
    apply count_int_bytes_loop_negative. by apply Z.shiftr_neg. }
  split; [done|]. cbn [bertlv_encode_tag]. by rewrite Hcount.
Qed.

Lemma count_int_bytes_spec_witness :
  (∃ n : nat, count_int_bytes 24 0x9f8107 = Ok n ∧ (1 ≤ n)%nat ∧
              0x9f8107 < 256 ^ Z.of_nat n ∧
              ((1 < n)%nat → 256 ^ Z.of_nat (n - 1) <= 0x9f8107) ∧
              int_to_bytes 0x9f8107 n = Ok (be_bytes n 0x9f8107)) ∧
  count_int_bytes 1000 (-1) = OutOfFuel ∧
  bertlv_encode_tag 1000 (TagInt (-1)) = OutOfFuel.
Proof.
  split.
  - apply (count_int_bytes_spec 24 0x9f8107). split; [lia|reflexivity].
  - apply (count_int_bytes_spec 1000 (-1)). lia.
Defined.

Lemma count_int_bytes_loop_0 (fuel i : nat) :
  count_int_bytes_loop fuel i 0 = Ok i.
Proof. by destruct fuel. Qed.

Lemma bertlv_encode_tag_int_byte (fuel : nat) (t : Z) :
  0 <= t <= 255 →
  bertlv_encode_tag fuel (TagInt t)
  = if Z.land t 0x1f =? 0x1f then Raise IndexError else Ok [low_byte t].
Proof.
  intros Ht.
  assert (Hk : ∃ k : nat, t = Z.of_nat k ∧ (k < 256)%nat)
    by (exists (Z.to_nat t); lia).
  destruct Hk as (k & -> & Hk). clear Ht.
  cbn [bertlv_encode_tag]. unfold count_int_bytes.
  assert (Hshift : Z.shiftr (Z.of_nat k) 8 = 0).
  { rewrite Z.shiftr_div_pow2 by lia. apply Z.div_small.
    change (2 ^ 8) with 256. lia. }
  rewrite Hshift, count_int_bytes_loop_0. cbn [mbind result_bind].
  do 256 (destruct k as [|k]; [reflexivity|]). lia.
Qed.

(** X16: a tag given as a one-byte int is written back as that very byte, with any
    fuel, and [bertlv_parse_tag_raw] reads the int back from it; unless the
    low five bits of the int are all set: such a byte announces continuation
    bytes that a one-byte int does not have, and the encoder raises
    IndexError. *)
Theorem bertlv_encode_tag_one_byte_int (fuel : nat) (t : Z) (rest : bytes) :
  0 <= t <= 255 →
  (Z.land t 0x1f = 0x1f → bertlv_encode_tag fuel (TagInt t) = Raise IndexError) ∧
  (Z.land t 0x1f ≠ 0x1f →
   bertlv_encode_tag fuel (TagInt t) = Ok [low_byte t] ∧
   bertlv_parse_tag_raw (low_byte t :: rest) = Ok (Some t, rest)).
Proof.
  intros Ht. rewrite (bertlv_encode_tag_int_byte fuel t Ht).
  destruct (Z.eqb_spec (Z.land t 0x1f) 0x1f) as [Heq|Hne]; split; try done.
  intros _. split; [done|].
  unfold bertlv_parse_tag_raw. rewrite getitem_cons_0.
  rewrite byte_val_low_byte, Z.mod_small by lia. cbn [mbind result_bind].
  assert (Hnff : t ≠ 0xff) by (intros ->; by apply Hne).
  destruct (Z.eqb_spec t 0xff) as [?|_]; [done|]. cbn [andb mbind result_bind].
  assert (Hlow : 0 <= Z.land t 0x1f <= 0x1f).
  { change 0x1f with (Z.ones 5). rewrite Z.land_ones by lia.
    pose proof (Z.mod_pos_bound t (2 ^ 5) ltac:(lia)).
    change (2 ^ 5) with 32 in *. change (Z.ones 5) with 31. lia. }
  destruct (Z.leb_spec (Z.land t 0x1f) 30); [done|lia].
Qed.

Lemma bertlv_encode_tag_one_byte_int_witness :
  (Z.land 0x30 0x1f = 0x1f → bertlv_encode_tag 0 (TagInt 0x30) = Raise IndexError) ∧
  (Z.land 0x30 0x1f ≠ 0x1f →
   bertlv_encode_tag 0 (TagInt 0x30) = Ok [low_byte 0x30] ∧
   bertlv_parse_tag_raw (low_byte 0x30 :: [xaa]) = Ok (Some 0x30, [xaa])).
Proof. apply (bertlv_encode_tag_one_byte_int 0 0x30 [xaa]). lia. Defined.

(** * Further properties of the data objects *)

Lemma bertlv_encode_len_short (n : Z) :
  0 <= n < 0x80 → bertlv_encode_len n = Ok [low_byte n].
Proof.
  intros Hn. unfold bertlv_encode_len.
  destruct (Z.ltb_spec n 0x80); [|lia]. apply int_to_bytes_1. lia.
Qed.

Lemma store_lookup_insert (h : store) (l : loc) (o : DataObject) :
  (<[l := o]> h) l = o.
Proof. apply fn_lookup_insert. Qed.

Lemma read_only_to_bytes (self : loc) : read_only (DataObject_to_bytes self).
Proof.
  intros h. unfold DataObject_to_bytes. rewrite ST_bind_get_obj.
  by destruct (do_class_of (h self)).
Qed.

(** ** [to_tlv] and [from_tlv] *)

Lemma DataObject_tlv_roundtrip_parts (fuel : nat) (self : loc) (h : store) (t : Z)
    (val rest : bytes) :
  do_tag (h self) = Some t → 0 <= t <= 255 → Z.land t 0x1f ≠ 0x1f →
  snd (DataObject_to_bytes self h) = Ok val → (length val < 128)%nat →
  DataObject_to_tlv fuel self h
  = (h, Ok (low_byte t :: low_byte (Z.of_nat (length val)) :: val)) ∧
  DataObject_from_tlv self
    (low_byte t :: low_byte (Z.of_nat (length val)) :: val ++ rest) h
  = (_ ← DataObject_from_bytes self val; mret rest) h.
Proof.
  intros Htag Ht Hlow Hval Hlen. split.
  - assert (Hto : DataObject_to_bytes self h = (h, Ok val)).
    { pose proof (read_only_to_bytes self h) as Hro.
      destruct (DataObject_to_bytes self h) as [h' r]. simpl in *. congruence. }
    unfold DataObject_to_tlv. rewrite ST_bind_eq, Hto.
    unfold DataObject_compute_tag. rewrite ST_bind_eq, ST_bind_get_obj, Htag.
    cbn [mret ST_ret from_option]. rewrite ST_bind_lift.
    rewrite bertlv_encode_tag_int_byte by done.
    destruct (Z.eqb_spec (Z.land t 0x1f) 0x1f); [done|].
    rewrite ST_bind_lift, bertlv_encode_len_short by lia. reflexivity.
  - rewrite DataObject_from_tlv_unfold
      by (by rewrite byte_val_low_byte, Z.mod_small by lia).
    rewrite byte_val_low_byte, Z.mod_small, Nat2Z.id by lia.
    by rewrite take_app_length, drop_app_length.
Qed.


(** X17: for an object with a one-byte tag (low five bits not all set) and a value
    of fewer than 128 bytes, [to_tlv] writes tag byte, length byte and value,
    and [from_tlv] on a buffer that starts with these bytes hands exactly the
    value to [from_bytes] and returns what follows. *)
Theorem DataObject_tlv_roundtrip (fuel : nat) (self : loc) (h : store) (t : Z)
    (val rest : bytes) :
  do_tag (h self) = Some t → 0 <= t <= 255 → Z.land t 0x1f ≠ 0x1f →
  snd (DataObject_to_bytes self h) = Ok val → (length val < 128)%nat →
  DataObject_to_tlv fuel self h
  = (h, Ok (low_byte t :: low_byte (Z.of_nat (length val)) :: val)) ∧
  DataObject_from_tlv self
    (low_byte t :: low_byte (Z.of_nat (length val)) :: val ++ rest) h
  = (_ ← DataObject_from_bytes self val; mret rest) h ∧
  bertlv_parse_one (low_byte t :: low_byte (Z.of_nat (length val)) :: val ++ rest)
  = Ok (mkBerTag (Z.shiftr t 6) (truthy (Z.land t 0x20)) (Z.land t 0x1f),
        Z.of_nat (length val), val, rest).
Proof.
  intros Htag Ht Hlow Hval Hlen.
  destruct (DataObject_tlv_roundtrip_parts fuel self h t val rest) as [H1 H2];
    try done.
  split_and!; [done|done|].
  unfold bertlv_parse_one, bertlv_parse_tag.
  rewrite getitem_cons_0. cbn [mbind result_bind].
  rewrite byte_val_low_byte, Z.mod_small by lia.
  assert (Hle : (Z.land t 31 <=? 30) = true).
  { apply Z.leb_le. assert (0 <= Z.land t 0x1f <= 0x1f); [|lia].
    change 0x1f with (Z.ones 5). rewrite Z.land_ones by lia.
    pose proof (Z.mod_pos_bound t (2 ^ 5) ltac:(lia)).
    change (2 ^ 5) with 32 in *. change (Z.ones 5) with 31. lia. }
  rewrite Hle. cbn [mbind result_bind].
  change (drop 1 (low_byte t :: ?l)) with l.
  rewrite bertlv_parse_len_short
    by (rewrite byte_val_low_byte, Z.mod_small by lia; lia).
  cbn [mbind result_bind].
  rewrite byte_val_low_byte, Z.mod_small, Nat2Z.id by lia.
  by rewrite take_app_length, drop_app_length.
Qed.

Lemma DataObject_tlv_roundtrip_witness :
  let h := <[1%nat := with_decoded (example_store 1%nat) (PyBytes [xaa; xbb])]>
             example_store in
  DataObject_to_tlv 0 1%nat h
  = (h, Ok (low_byte 0x31 :: low_byte (Z.of_nat (length [xaa; xbb])) :: [xaa; xbb])) ∧
  DataObject_from_tlv 1%nat
    (low_byte 0x31 :: low_byte (Z.of_nat (length [xaa; xbb])) :: [xaa; xbb] ++ [xff]) h
  = (_ ← DataObject_from_bytes 1%nat [xaa; xbb]; mret [xff]) h ∧
  bertlv_parse_one
    (low_byte 0x31 :: low_byte (Z.of_nat (length [xaa; xbb])) :: [xaa; xbb] ++ [xff])
  = Ok (mkBerTag (Z.shiftr 0x31 6) (truthy (Z.land 0x31 0x20)) (Z.land 0x31 0x1f),
        Z.of_nat (length [xaa; xbb]), [xaa; xbb], [xff]).
Proof.
  apply (DataObject_tlv_roundtrip 0 1%nat _ 0x31 [xaa; xbb] [xff]).
  - reflexivity.
  - lia.
  - vm_compute. discriminate.
  - reflexivity.
  - simpl. lia.
Defined.

(** ** The indices of a collection *)

Lemma index_lookup_last {K} `{Countable K} (f : loc → K) (ms : list loc)
    (d0 : gmap K loc) (k : K) :
  foldl (fun d m => <[f m := m]> d) d0 ms !! k
  = match last (filter (fun m => f m = k) ms) with
    | Some m => Some m
    | None => d0 !! k
    end.
Proof.
  revert d0. induction ms as [|m ms IH]; intros d0; [done|].
  cbn [foldl]. rewrite IH, filter_cons.
  destruct (decide (f m = k)) as [Hk|Hk].
  - rewrite last_cons. destruct (last (filter _ ms)); [done|].
    by rewrite Hk, lookup_insert_eq.
  - destruct (last (filter _ ms)); [done|]. by rewrite lookup_insert_ne.
Qed.

(** X18: a collection built from a members list keeps that list, and its two
    indices answer for a tag, or a name, with the last member of the list
    that carries it: later members shadow earlier ones, and a tag or name no
    member carries is not in the index. *)
Theorem DataObjectCollection_init_index (name desc : option string)
    (ms : list loc) (h : store) :
  ∃ c, DataObjectCollection_init name desc (Some ms) h = Ok c ∧
       coll_name c = name ∧ coll_desc c = desc ∧ members c = ms ∧
       (∀ t, members_by_tag c !! t = last (filter (fun m => do_tag (h m) = t) ms)) ∧
       (∀ k, members_by_name c !! k = last (filter (fun m => do_name (h m) = k) ms)).
Proof.
  eexists. split; [reflexivity|]. cbn. split_and!; try done.
  - intros t. rewrite index_lookup_last, lookup_empty.
    by destruct (last (filter _ ms)).
  - intros k. rewrite index_lookup_last, lookup_empty.
    by destruct (last (filter _ ms)).
Qed.

(** ** Decoding a collection, record by record *)

(** The outcome of the rest of the loop, with the results gathered before
    put in front. *)
Lemma collection_decode_loop_acc (fuel : nat) (self : DataObjectCollection)
    (res0 : list pydict) (remainder : bytes) (h : store) :
  DataObjectCollection_decode_loop fuel self res0 remainder h
  = match DataObjectCollection_decode_loop fuel self [] remainder h with
    | (h', Ok (res, rem)) => (h', Ok (res0 ++ res, rem))
    | other => other
    end.
Proof.
  revert res0 remainder h. induction fuel as [|fuel IH]; intros res0 remainder h;
    cbn [DataObjectCollection_decode_loop]; [done|].
  destruct (length remainder =? 0)%nat;
    [cbn [mret ST_ret]; by rewrite app_nil_r|].
  rewrite !ST_bind_lift. destruct (getitem remainder 0) as [tag| |]; [|done..].
  destruct (tag =? 0xff); [cbn [mret ST_ret]; by rewrite app_nil_r|].
  destruct (members_by_tag self !! Some tag) as [obj|]; [|done].
  rewrite !ST_bind_eq.
  destruct (DataObject_from_tlv obj remainder h) as [h1 [r| |]]; [|done..].
  unfold DataObject_to_dict. rewrite !ST_bind_eq.
  cbn [get_obj mret ST_ret app].
  rewrite (IH (res0 ++ _)), (IH [_]).
  destruct (DataObjectCollection_decode_loop fuel self [] r h1) as [h2 [[res rem]| |]];
    [|done..].
  by rewrite <- app_assoc.
Qed.

Lemma collection_decode_loop_fuel (fuel1 fuel2 : nat)
    (self : DataObjectCollection) (res : list pydict) (remainder : bytes)
    (h : store) :
  (length remainder < fuel1)%nat → (length remainder < fuel2)%nat →
  DataObjectCollection_decode_loop fuel1 self res remainder h
  = DataObjectCollection_decode_loop fuel2 self res remainder h.
Proof.
  revert fuel2 res remainder h.
  induction fuel1 as [|fuel1 IH]; intros fuel2 res remainder h H1 H2; [lia|].
  destruct fuel2 as [|fuel2]; [lia|].
  cbn [DataObjectCollection_decode_loop].
  destruct (length remainder =? 0)%nat; [done|].
  rewrite !ST_bind_lift. destruct (getitem remainder 0) as [tag| |]; [|done..].
  destruct (tag =? 0xff); [done|].
  destruct (members_by_tag self !! Some tag) as [obj|]; [|done].
  rewrite !ST_bind_eq.
  destruct (DataObject_from_tlv obj remainder h) as [h1 [r| |]] eqn:Htlv; [|done..].
  apply DataObject_from_tlv_shorter in Htlv.
  unfold DataObject_to_dict. rewrite !ST_bind_eq.
  cbn [get_obj mret ST_ret]. apply IH; lia.
Qed.

Lemma collection_decode_loop_S (fuel : nat) (self : DataObjectCollection)
    (res : list pydict) (remainder : bytes) :
  DataObjectCollection_decode_loop (S fuel) self res remainder
  = if (length remainder =? 0)%nat then mret (res, remainder)
    else
      tag ← lift (getitem remainder 0);
      if tag =? 0xff then mret (res, remainder)
      else match members_by_tag self !! Some tag with
           | None => raise ValueError
           | Some obj =>
               remainder ← DataObject_from_tlv obj remainder;
               d ← DataObject_to_dict obj;
               DataObjectCollection_decode_loop fuel self (res ++ [d]) remainder
           end.
Proof. reflexivity. Qed.

(** X19: when the buffer starts with a record that a member of the collection
    parses, [decode] gives that member's dict followed by whatever [decode]
    gives on the rest of the buffer, from the store the member left. *)
Theorem DataObjectCollection_decode_cons (self : DataObjectCollection)
    (b0 : byte) (tl rest : bytes) (obj : loc) (h h1 : store) :
  byte_val b0 ≠ 0xff →
  members_by_tag self !! Some (byte_val b0) = Some obj →
  DataObject_from_tlv obj (b0 :: tl) h = (h1, Ok rest) →
  DataObjectCollection_decode self (b0 :: tl) h
  = match DataObjectCollection_decode self rest h1 with
    | (h2, Ok (res, rem)) =>
        (h2, Ok ([(do_name (h1 obj), do_decoded (h1 obj))] :: res, rem))
    | other => other
    end.
Proof.
  intros Hff Hobj Htlv. unfold DataObjectCollection_decode.
  rewrite collection_decode_loop_S. cbn [length Nat.eqb].
  rewrite ST_bind_lift, getitem_cons_0.
  destruct (Z.eqb_spec (byte_val b0) 0xff); [done|].
  rewrite Hobj, ST_bind_eq, Htlv.
  unfold DataObject_to_dict. rewrite ST_bind_eq, ST_bind_get_obj.
  cbn [mret ST_ret app].
  pose proof (DataObject_from_tlv_shorter _ _ _ _ _ Htlv) as Hshort.
  cbn [length] in Hshort.
  rewrite collection_decode_loop_acc.
  rewrite (collection_decode_loop_fuel (S (length tl)) (S (length rest)))
    by lia.
  by destruct (DataObjectCollection_decode_loop _ self [] rest h1)
    as [h2 [[res rem]| |]].
Qed.

Lemma DataObjectCollection_decode_cons_witness :
  DataObjectCollection_decode example_choice [x30; x00; xff] example_store
  = match DataObjectCollection_decode example_choice [xff]
            (<[0%nat := with_decoded (example_store 0%nat) (PyInt 1)]> example_store) with
    | (h2, Ok (res, rem)) => (h2, Ok ([("a"%string, PyInt 1)] :: res, rem))
    | other => other
    end.
Proof.
  apply (DataObjectCollection_decode_cons example_choice x30 [x00; xff] [xff]
           0%nat example_store).
  - vm_compute. discriminate.
  - reflexivity.
  - reflexivity.
Defined.

Lemma DataObject_from_tlv_suffix (self : loc) (do r : bytes) (h h' : store) :
  DataObject_from_tlv self do h = (h', Ok r) → r `suffix_of` do.
Proof.
  unfold DataObject_from_tlv. rewrite ST_bind_get_obj, ST_bind_lift.
  destruct (getitem do 0); [|discriminate..].
  destruct (tag_ne _ _); [discriminate|]. rewrite ST_bind_lift.
  destruct (getitem do 1); [|discriminate..]. rewrite ST_bind_eq.
  destruct (DataObject_from_bytes _ _ _) as [h1 [[]| |]]; try discriminate.
  intros [= _ <-]. apply suffix_drop.
Qed.

Lemma collection_decode_loop_post (fuel : nat) (self : DataObjectCollection)
    (res0 res : list pydict) (remainder rem : bytes) (h h' : store) :
  DataObjectCollection_decode_loop fuel self res0 remainder h = (h', Ok (res, rem)) →
  rem `suffix_of` remainder ∧ (rem = [] ∨ ∃ r, rem = xff :: r).
Proof.
  revert res0 remainder h. induction fuel as [|fuel IH]; intros res0 remainder h;
    cbn [DataObjectCollection_decode_loop]; [discriminate|].
  destruct remainder as [|b0 tl]; cbn [length Nat.eqb].
  { intros [= _ _ <-]. split; [done|by left]. }
  rewrite ST_bind_lift, getitem_cons_0.
  destruct (Z.eqb_spec (byte_val b0) 0xff) as [Hff|_].
  { apply byte_val_ff in Hff as ->. intros [= _ _ <-].
    split; [done|right; by eexists]. }
  destruct (members_by_tag self !! Some (byte_val b0)) as [obj|]; [|discriminate].
  rewrite ST_bind_eq.
  destruct (DataObject_from_tlv obj (b0 :: tl) h) as [h1 [r| |]] eqn:Htlv;
    [|discriminate..].
  apply DataObject_from_tlv_suffix in Htlv.
  unfold DataObject_to_dict. rewrite ST_bind_eq, ST_bind_get_obj.
  cbn [mret ST_ret]. intros Hloop. apply IH in Hloop as [Hsuf Hend].
  split; [by etrans|done].
Qed.

(** X20: when [DataObjectCollection.decode] returns, the remainder is an end piece
    of the input and is either empty or starts with the byte 0xFF. *)
Theorem DataObjectCollection_decode_post (self : DataObjectCollection)
    (binary rem : bytes) (res : list pydict) (h h' : store) :
  DataObjectCollection_decode self binary h = (h', Ok (res, rem)) →
  rem `suffix_of` binary ∧ (rem = [] ∨ ∃ r, rem = xff :: r).
Proof. apply collection_decode_loop_post. Qed.

Lemma DataObjectCollection_decode_post_witness :
  [xff; xff] `suffix_of` [x30; x00; xff; xff] ∧
  ([xff; xff] = ([] : bytes) ∨ ∃ r, [xff; xff] = xff :: r).
Proof.
  apply (DataObjectCollection_decode_post example_choice [x30; x00; xff; xff]
           [xff; xff] [[("a"%string, PyInt 1)]] example_store
           (<[0%nat := with_decoded (example_store 0%nat) (PyInt 1)]> example_store)).
  reflexivity.
Defined.

(** ** Sequences *)

Lemma sequence_decode_loop_sentinel (es : list seq_elem) (res : list pydict)
    (rest : bytes) (h : store) :
  Forall (fun e => ∃ c, e = ElemChoice c) es →
  DataObjectSequence_decode_loop es res (xff :: rest) h
  = (h, Ok (res, xff :: rest)).
Proof.
  intros Hall. revert res. induction Hall as [|e es [c ->] _ IH]; intros res;
    [reflexivity|].
  cbn [DataObjectSequence_decode_loop elem_decode]. rewrite ST_bind_eq.
  change (DataObjectChoice_decode c (xff :: rest) h) with (h, Ok (@None pydict, xff :: rest)).
  cbn [dict_truthy]. apply IH.
Qed.

(** X22: on a buffer that starts with 0xFF a sequence made of choices only decodes
    to no result at all, the whole buffer left: every choice takes the byte
    for the end of the data and steps aside.  [decode_multi] stops after that
    one repetition, which made no progress. *)
Theorem DataObjectSequence_decode_sentinel (self : DataObjectSequence)
    (rest : bytes) (h : store) :
  Forall (fun e => ∃ c, e = ElemChoice c) (sequence self) →
  DataObjectSequence_decode self (xff :: rest) h = (h, Ok ([], xff :: rest)) ∧
  DataObjectSequence_decode_multi self (xff :: rest) h = (h, Ok ([], xff :: rest)).
Proof.
  intros Hall.
  assert (Hdec : DataObjectSequence_decode self (xff :: rest) h
                 = (h, Ok ([], xff :: rest)))
    by (by apply sequence_decode_loop_sentinel).
  split; [done|].
  unfold DataObjectSequence_decode_multi.
  cbn [DataObjectSequence_decode_multi_loop length Nat.eqb].
  rewrite ST_bind_eq, Hdec. by rewrite Nat.ltb_irrefl.
Qed.

Lemma DataObjectSequence_decode_sentinel_witness :
  let s := mkDataObjectSequence None None
             [ElemChoice example_choice; ElemChoice example_choice] in
  DataObjectSequence_decode s (xff :: [xff]) example_store
  = (example_store, Ok ([], xff :: [xff])) ∧
  DataObjectSequence_decode_multi s (xff :: [xff]) example_store
  = (example_store, Ok ([], xff :: [xff])).
Proof.
  apply (DataObjectSequence_decode_sentinel
           (mkDataObjectSequence None None
              [ElemChoice example_choice; ElemChoice example_choice])
           [xff] example_store).
  repeat constructor; by eexists.
Defined.

(** X23: the order of a sequence is binding: when its first element is a leaf and
    the buffer starts with another tag than that leaf's, [decode] raises
    ValueError and no object is written, whatever comes later in the sequence
    or in the buffer. *)
Theorem DataObjectSequence_decode_order (self : DataObjectSequence)
    (obj : loc) (es : list seq_elem) (t : Z) (b0 : byte) (rest : bytes)
    (h : store) :
  sequence self = ElemDO obj :: es →
  do_tag (h obj) = Some t → byte_val b0 ≠ t →
  DataObjectSequence_decode self (b0 :: rest) h = (h, Raise ValueError).
Proof.
  intros Hseq Htag Hne. unfold DataObjectSequence_decode. rewrite Hseq.
  cbn [DataObjectSequence_decode_loop elem_decode].
  rewrite !ST_bind_eq. unfold DataObject_decode.
  rewrite ST_bind_get_obj, ST_bind_lift, getitem_cons_0, Htag.
  cbn [tag_ne]. by destruct (Z.eqb_spec (byte_val b0) t).
Qed.

Lemma DataObjectSequence_decode_order_witness :
  DataObjectSequence_decode
    (mkDataObjectSequence None None [ElemDO 0%nat; ElemDO 1%nat])
    (x31 :: [x00; x30; x00]) example_store
  = (example_store, Raise ValueError).
Proof.
  apply (DataObjectSequence_decode_order
           (mkDataObjectSequence None None [ElemDO 0%nat; ElemDO 1%nat])
           0%nat [ElemDO 1%nat] 0x30 x31 [x00; x30; x00] example_store).
  - reflexivity.
  - reflexivity.
  - vm_compute. discriminate.
Defined.

Lemma sequence_encode_loop_with_leaf (fuel : nat) (es : list seq_elem)
    (decoded : list pydict) (i : nat) (encoded : bytes) (h : store) (obj : loc) :
  ElemDO obj ∈ es →
  ∀ h' b, DataObjectSequence_encode_loop fuel es decoded i encoded h ≠ (h', Ok b).
Proof.
  intros Hin. revert i encoded h.
  induction es as [|e es IH]; intros i encoded h h' b; [by apply elem_of_nil in Hin|].
  cbn [DataObjectSequence_encode_loop].
  destruct (decoded !! i) as [d|]; [|done].
  rewrite ST_bind_eq. apply elem_of_cons in Hin as [<-|Hin].
  - done.
  - destruct (elem_encode fuel e d h) as [h1 [b1| |]]; [|done..].
    by apply IH.
Qed.

(** X24: a sequence with a DataObject leaf among its elements cannot be encoded:
    [encode] passes the value to the element's [encode], and
    [DataObject.encode] takes no argument, so on every input the call ends in
    an exception (or, where an earlier choice does not finish encoding its
    tag, never ends) and never returns bytes. *)
Theorem DataObjectSequence_encode_with_leaf (fuel : nat)
    (self : DataObjectSequence) (decoded : list pydict) (h : store) (obj : loc) :
  ElemDO obj ∈ sequence self →
  ∀ h' b, DataObjectSequence_encode fuel self decoded h ≠ (h', Ok b).
Proof. intros Hin. by apply sequence_encode_loop_with_leaf with obj. Qed.

Lemma DataObjectSequence_encode_with_leaf_witness :
  ¬ ∃ h' b,
      DataObjectSequence_encode 1
        (mkDataObjectSequence None None [ElemChoice example_choice; ElemDO 0%nat])
        [[("b"%string, PyBytes [x01])]; [("a"%string, PyInt 1)]] example_store
      = (h', Ok b).
Proof.
  intros (h' & b & Henc).
  apply (DataObjectSequence_encode_with_leaf 1
           (mkDataObjectSequence None None [ElemChoice example_choice; ElemDO 0%nat])
           [[("b"%string, PyBytes [x01])]; [("a"%string, PyInt 1)]]
           example_store 0%nat) in Henc; [done|].
  cbn. rewrite !elem_of_cons. tauto.
Defined.

(** ** A choice, encoded and decoded again *)

(** X25: for a member of a choice that is indexed under its own name and its own
    one-byte tag, and whose value codec reads back what it writes, encoding
    [{name: v}] and decoding the bytes (with anything behind them) gives
    [{name: v}] again and leaves what was behind. *)
Theorem DataObjectChoice_roundtrip (fuel : nat) (self : DataObjectCollection)
    (h : store) (k : string) (v : pyval) (obj : loc) (t : Z)
    (fb : bytes → result pyval) (tb : pyval → result bytes)
    (val rest : bytes) :
  members_by_name self !! k = Some obj →
  members_by_tag self !! Some t = Some obj →
  do_name (h obj) = k → do_tag (h obj) = Some t →
  0 <= t < 255 → Z.land t 0x1f ≠ 0x1f →
  do_class_of (h obj) = Subclass fb tb →
  tb v = Ok val → (length val < 128)%nat → fb val = Ok v →
  ∃ h1 bs,
    DataObjectChoice_encode fuel self [(k, v)] h = (h1, Ok bs) ∧
    snd (DataObjectChoice_decode self (bs ++ rest) h1) = Ok (Some [(k, v)], rest).
Proof.
  intros Hname Htag Hk Ht Hrange Hlow Hcls Htb Hlen Hfb.
  set (h1 := <[obj := with_decoded (h obj) v]> h).
  assert (Hobj1 : h1 obj = with_decoded (h obj) v)
    by apply store_lookup_insert.
  assert (Hto : snd (DataObject_to_bytes obj h1) = Ok val).
  { unfold DataObject_to_bytes. rewrite ST_bind_get_obj, Hobj1.
    cbn [with_decoded do_class_of do_decoded]. rewrite Hcls. by cbn. }
  destruct (DataObject_tlv_roundtrip_parts fuel obj h1 t val rest) as [Henc Hdec];
    [by rewrite Hobj1|lia|done|done|done|].
  exists h1, (low_byte t :: low_byte (Z.of_nat (length val)) :: val).
  split.
  - unfold DataObjectChoice_encode. rewrite Hname, ST_bind_eq.
    cbn [set_decoded]. exact Henc.
  - unfold DataObjectChoice_decode.
    cbn [app]. rewrite ST_bind_lift, getitem_cons_0.
    rewrite byte_val_low_byte, Z.mod_small by lia.
    destruct (Z.eqb_spec t 0xff); [lia|].
    rewrite Htag, ST_bind_eq, Hdec.
    unfold DataObject_from_bytes at 1.
    rewrite ST_bind_eq, ST_bind_get_obj, Hobj1.
    cbn [with_decoded do_class_of]. rewrite Hcls, ST_bind_lift, Hfb.
    cbn [set_decoded mret ST_ret]. unfold DataObject_to_dict.
    rewrite ST_bind_eq, ST_bind_get_obj. cbn [mret ST_ret snd].
    rewrite store_lookup_insert, Hobj1.
    cbn [with_decoded do_name do_decoded]. by rewrite Hk.
Qed.

Lemma DataObjectChoice_roundtrip_witness :
  ∃ h1 bs,
    DataObjectChoice_encode 0 example_choice [("b"%string, PyBytes [xaa; xbb])]
      example_store = (h1, Ok bs) ∧
    snd (DataObjectChoice_decode example_choice (bs ++ [xff]) h1)
    = Ok (Some [("b"%string, PyBytes [xaa; xbb])], [xff]).
Proof.
  apply (DataObjectChoice_roundtrip 0 example_choice example_store "b"
           (PyBytes [xaa; xbb]) 1%nat 0x31
           (fun b => Ok (PyBytes b))
           (fun v => match v with PyBytes b => Ok b | _ => Raise TypeError end)
           [xaa; xbb] [xff]).
  - reflexivity.
  - reflexivity.
  - reflexivity.
  - reflexivity.
  - lia.
  - vm_compute. discriminate.
  - reflexivity.
  - reflexivity.
  - simpl. lia.
  - reflexivity.
Defined.

(** * Properties of the string helpers *)

Lemma list_pair_ind {A} (P : list A → Prop) :
  P [] → (∀ a, P [a]) → (∀ a b r, P r → P (a :: b :: r)) → ∀ s, P s.
Proof.
  intros Hnil Hone Hstep.
  assert (Hboth : ∀ s, P s ∧ ∀ a, P (a :: s)).
  { induction s as [|b s [IH1 IH2]]; [by split|].
    split; [apply IH2|]. intros a. by apply Hstep. }
  intros s. apply Hboth.
Qed.

Lemma swap_nibbles_cons2 (a b : ascii) (r : str) :
  swap_nibbles (a :: b :: r) = b :: a :: swap_nibbles r.
Proof.
  unfold swap_nibbles. cbn [drop every_other zip_with concat app].
  do 3 f_equal. by destruct r.
Qed.

Lemma div2_SS (n : nat) : (S (S n) / 2 = S (n / 2))%nat.
Proof.
  replace (S (S n)) with (n + 1 * 2)%nat by lia. rewrite Nat.div_add by lia. lia.
Qed.

(** X26: [swap_nibbles] swaps the characters two by two and drops the last
    character of a str of odd length: its result has even length, and
    applying it twice gives back the str without that last character. *)
Theorem swap_nibbles_twice (s : str) :
  length (swap_nibbles s) = (2 * (length s / 2))%nat ∧
  swap_nibbles (swap_nibbles s) = take (2 * (length s / 2)) s.
Proof.
  induction s as [|a|a b r [IHlen IH]] using list_pair_ind; [done|done|].
  rewrite !swap_nibbles_cons2, IH. cbn [length]. rewrite IHlen, div2_SS.
  split; [lia|]. by replace (2 * S (length r / 2))%nat
    with (S (S (2 * (length r / 2)))) by lia.
Qed.

Lemma swap_nibbles_involutive (s : str) :
  Nat.Even (length s) → swap_nibbles (swap_nibbles s) = s.
Proof.
  induction s as [|a|a b r IH] using list_pair_ind; [done| |].
  - intros [k Hk]. simpl in Hk. lia.
  - intros [k Hk]. rewrite !swap_nibbles_cons2, IH; [done|].
    exists (k - 1)%nat. simpl in Hk. lia.
Qed.

Lemma str_mul_char (c : ascii) (n : Z) :
  str_mul [c] n = replicate (Z.to_nat n) c.
Proof.
  unfold str_mul. induction (Z.to_nat n) as [|k IH]; [done|].
  cbn [replicate concat app]. by rewrite IH.
Qed.

Lemma lstrip_replicate_app (c : ascii) (k : nat) (u : str) :
  lstrip [c] (replicate k c ++ u) = lstrip [c] u.
Proof.
  induction k as [|k IH]; [done|]. cbn [replicate app lstrip].
  rewrite bool_decide_eq_true_2 by set_solver. exact IH.
Qed.

Lemma lstrip_head (c : ascii) (s : str) :
  head s ≠ Some c → lstrip [c] s = s.
Proof.
  destruct s as [|x r]; [done|]. cbn [head lstrip]. intros Hx.
  rewrite bool_decide_eq_false_2; [done|].
  rewrite elem_of_cons, elem_of_nil. intros [->|[]]. by apply Hx.
Qed.

Lemma strip_padding (c : ascii) (s : str) (k : nat) :
  head s ≠ Some c → last s ≠ Some c →
  strip [c] (s ++ replicate k c) = s.
Proof.
  intros Hhead Hlast. unfold strip, rstrip.
  destruct s as [|x r].
  - cbn [app]. replace (replicate k c) with (replicate k c ++ [])
      by apply app_nil_r.
    rewrite lstrip_replicate_app. reflexivity.
  - rewrite (lstrip_head c ((x :: r) ++ replicate k c)) by exact Hhead.
    rewrite reverse_app, reverse_replicate, lstrip_replicate_app.
    rewrite lstrip_head; [by rewrite reverse_involutive|].
    by rewrite head_reverse.
Qed.

(** X27: An ICCID of at most 20 characters (or of any even length) that neither
    starts nor ends with the padding character 'f' comes back unchanged from
    [dec_iccid (enc_iccid iccid)]. *)
Theorem iccid_roundtrip (iccid : str) :
  (length iccid ≤ 20)%nat ∨ Nat.Even (length iccid) →
  head iccid ≠ Some "f"%char → last iccid ≠ Some "f"%char →
  dec_iccid (enc_iccid iccid) = iccid.
Proof.
  intros Hlen Hhead Hlast. unfold dec_iccid, enc_iccid, rpad.
  rewrite str_mul_char.
  rewrite swap_nibbles_involutive; [by apply strip_padding|].
  rewrite length_app, length_replicate.
  destruct (Nat.le_gt_cases (length iccid) 20) as [Hle|Hgt].
  - exists 10%nat. lia.
  - destruct Hlen as [?|[k Hk]]; [lia|]. exists k. lia.
Qed.

Lemma iccid_roundtrip_witness :
  dec_iccid (enc_iccid (String.list_ascii_of_string "8988211000000280894"))
  = String.list_ascii_of_string "8988211000000280894".
Proof.
  apply (iccid_roundtrip (String.list_ascii_of_string "8988211000000280894")).
  - left. simpl. lia.
  - simpl. discriminate.
  - simpl. discriminate.
Defined.

(** * Properties of the card commands *)

Lemma union_fold_lookup (m2 d0 : gmap Z CardCommand) (l : list Z) (k : Z) :
  foldl (fun d c => match m2 !! c with
                    | Some cmd => <[c := cmd]> d
                    | None => d
                    end) d0 l !! k
  = match (if bool_decide (k ∈ l) then m2 !! k else None) with
    | Some c => Some c
    | None => d0 !! k
    end.
Proof.
  revert d0. induction l as [|x l IH]; intros d0.
  - by rewrite bool_decide_eq_false_2 by set_solver.
  - cbn [foldl]. rewrite IH. clear IH.
    destruct (decide (k ∈ l)) as [Hin|Hnin].
    + rewrite !bool_decide_eq_true_2 by set_solver.
      destruct (m2 !! k) as [c|] eqn:Hk; [done|].
      destruct (m2 !! x) as [cx|] eqn:Hx; [|done].
      rewrite lookup_insert_ne; [done|]. intros ->. congruence.
    + rewrite (bool_decide_eq_false_2 (k ∈ l)) by done.
      destruct (decide (k = x)) as [->|Hne].
      * rewrite bool_decide_eq_true_2 by set_solver.
        destruct (m2 !! x) as [cx|]; [by rewrite lookup_insert_eq|done].
      * rewrite bool_decide_eq_false_2
          by (rewrite elem_of_cons; by intros [?|?]).
        destruct (m2 !! x) as [cx|]; [by rewrite lookup_insert_ne|done].
Qed.

Lemma CardCommandSet_lookup_ext (s1 s2 : CardCommandSet) (ins : Z) (cla : cla_arg) :
  cmds s1 !! ins = cmds s2 !! ins →
  CardCommandSet_lookup s1 ins cla = CardCommandSet_lookup s2 ins cla.
Proof. unfold CardCommandSet_lookup. by intros ->. Qed.

(** X28: adding a command whose INS the set does not have yet puts it in the set:
    a lookup of that INS without a class finds it, every other lookup is as
    before.  Adding a command whose INS is taken raises ValueError and leaves
    the set as it was.  Adding a set never raises: its commands go in, and a
    command of the left set with the same INS is replaced. *)
Theorem CardCommandSet_add_lookup (self : CardCommandSet) :
  (∀ c, cmds self !! cmd_ins c = None →
        ∃ self', CardCommandSet_add self (AddCommand c) = (self', Ok ()) ∧
                 CardCommandSet_lookup self' (cmd_ins c) ClaNone = Ok (Some c) ∧
                 ∀ ins cla, ins ≠ cmd_ins c →
                   CardCommandSet_lookup self' ins cla
                   = CardCommandSet_lookup self ins cla) ∧
  (∀ c, is_Some (cmds self !! cmd_ins c) →
        CardCommandSet_add self (AddCommand c) = (self, Raise ValueError)) ∧
  (∀ other,
     ∃ self', CardCommandSet_add self (AddSet other) = (self', Ok ()) ∧
              ∀ ins cla,
                CardCommandSet_lookup self' ins cla
                = if bool_decide (is_Some (cmds other !! ins))
                  then CardCommandSet_lookup other ins cla
                  else CardCommandSet_lookup self ins cla).
Proof.
  split_and!.
  - intros c Hfree. unfold CardCommandSet_add.
    rewrite bool_decide_eq_false_2 by (rewrite Hfree; by intros [? ?]).
    eexists. split; [done|]. split.
    + unfold CardCommandSet_lookup. cbn [cmds]. by rewrite lookup_insert_eq.
    + intros ins cla Hne. apply CardCommandSet_lookup_ext. cbn [cmds].
      by rewrite lookup_insert_ne.
  - intros c Htaken. unfold CardCommandSet_add.
    by rewrite bool_decide_eq_true_2.
  - intros other. eexists. split; [done|]. intros ins cla.
    assert (Hlook : ∀ k, cmds (CardCommandSet_add self (AddSet other)).1 !! k
                         = match cmds other !! k with
                           | Some c => Some c
                           | None => cmds self !! k
                           end).
    { intros k. cbn [CardCommandSet_add fst cmds]. rewrite union_fold_lookup.
      destruct (cmds other !! k) as [c|] eqn:Hk.
      - rewrite bool_decide_eq_true_2; [done|].
        apply elem_of_elements, elem_of_dom. by eexists.
      - by destruct (bool_decide _). }
    case_bool_decide as Hin; apply CardCommandSet_lookup_ext;
      cbn [CardCommandSet_add fst] in Hlook; rewrite Hlook.
    + by destruct Hin as [c ->].
    + destruct (cmds other !! ins) as [c|] eqn:Hk; [|done].
      exfalso. apply Hin. by eexists.
Qed.

Lemma CardCommandSet_add_lookup_witness :
  let select := CardCommand_init "SELECT" 0xa4 None None in
  let status := CardCommand_init "STATUS" 0xf2 None None in
  let self := CardCommandSet_init "set" [select] in
  (∃ self', CardCommandSet_add self (AddCommand status) = (self', Ok ()) ∧
            CardCommandSet_lookup self' (cmd_ins status) ClaNone = Ok (Some status) ∧
            ∀ ins cla, ins ≠ cmd_ins status →
              CardCommandSet_lookup self' ins cla
              = CardCommandSet_lookup self ins cla) ∧
  CardCommandSet_add self (AddCommand select) = (self, Raise ValueError).
Proof.
  intros select status self.
  destruct (CardCommandSet_add_lookup self) as (Hnew & Htaken & _).
  split.
  - apply (Hnew status). reflexivity.
  - apply (Htaken select). by eexists.
Defined.

Lemma cla_masked_pair (m0 m1 c0 c1 : ascii) :
  (c0' ← cla_masked_char [m0; m1] [c0; c1] 0;
   c1' ← cla_masked_char [m0; m1] [c0; c1] 1;
   Ok (bool_decide ([c0'; c1'] = [m0; m1])))
  = Ok (bool_decide ((m0 = "x"%char ∨ m0 = c0) ∧ (m1 = "x"%char ∨ m1 = c1))).
Proof.
  unfold cla_masked_char. cbn [str_getitem lookup list_lookup mbind result_bind].
  do 2 case_bool_decide; subst; cbn [mbind result_bind]; f_equal;
    apply bool_decide_ext; intuition congruence.
Qed.

(** X29: with two-character patterns and a two-character class str, [match_cla]
    answers True exactly when some pattern of the command agrees with the
    lower-cased class at each position where the pattern has no 'x'. *)
Theorem CardCommand_match_cla_spec (self : CardCommand) (cla : str) :
  Forall (fun m => length m = 2%nat) (cmd_cla_list self) →
  length cla = 2%nat →
  ∃ b, CardCommand_match_cla self (ClaStr cla) = Ok b ∧
       (b = true ↔
        Exists (fun m => ∀ i, (i < 2)%nat →
                  m !! i = Some "x"%char ∨ m !! i = str_lower cla !! i)
               (cmd_cla_list self)).
Proof.
  intros Hpat Hcla. unfold CardCommand_match_cla. cbn [mbind result_bind].
  assert (Hlow : length (str_lower cla) = 2%nat)
    by (unfold str_lower; by rewrite length_fmap).
  destruct (str_lower cla) as [|c0 [|c1 [|]]]; try done. clear Hlow.
  revert Hpat. generalize (cmd_cla_list self). intros l Hpat.
  induction Hpat as [|m ms Hm _ IH].
  - exists false. split; [reflexivity|]. split; [discriminate|].
    by intros ?%Exists_nil.
  - destruct m as [|m0 [|m1 [|]]]; try done. cbn [match_cla_loop].
    pose proof (cla_masked_pair m0 m1 c0 c1) as Hpair.
    destruct (cla_masked_char [m0; m1] [c0; c1] 0) as [c0'| |];
      cbn [mbind result_bind] in *; [|done..].
    destruct (cla_masked_char [m0; m1] [c0; c1] 1) as [c1'| |];
      cbn [mbind result_bind] in *; [|done..].
    injection Hpair as Hpair. rewrite Hpair. clear Hpair.
    case_bool_decide as Hthis.
    + exists true. split; [done|]. split; [|done]. intros _.
      apply Exists_cons_hd. destruct Hthis as [H0 H1].
      intros [|[|i]] Hi; cbn; [| |lia].
      * destruct H0 as [->| ->]; tauto.
      * destruct H1 as [->| ->]; tauto.
    + destruct IH as (b & Hb & Hiff). exists b. split; [done|].
      rewrite Hiff, Exists_cons. split; [by right|].
      intros [Hhd|Htl]; [|done]. exfalso. apply Hthis.
      pose proof (Hhd 0%nat ltac:(lia)) as H0.
      pose proof (Hhd 1%nat ltac:(lia)) as H1.
      cbn in H0, H1. split.
      * destruct H0 as [[= ->]|[= ->]]; tauto.
      * destruct H1 as [[= ->]|[= ->]]; tauto.
Qed.

Lemma CardCommand_match_cla_spec_witness :
  let select := CardCommand_init "SELECT" 0xa4
                  (Some [String.list_ascii_of_string "0X";
                         String.list_ascii_of_string "A0"]) None in
  ∃ b, CardCommand_match_cla select (ClaStr (String.list_ascii_of_string "a0")) = Ok b ∧
       (b = true ↔
        Exists (fun m => ∀ i, (i < 2)%nat →
                  m !! i = Some "x"%char
                  ∨ m !! i = str_lower (String.list_ascii_of_string "a0") !! i)
               (cmd_cla_list select)).
Proof.
  intros select.
  apply (CardCommand_match_cla_spec select (String.list_ascii_of_string "a0")).
  - repeat constructor.
  - reflexivity.
Defined.

(** ** Tag numbers the encoder cannot finish *)

Lemma get_top7_bits_keeps_top (x : Z) :
  7 <= Z.log2 x → Z.testbit x 6 = false →
  ∃ t r, get_top7_bits x = (t, r) ∧ 0 <= t < 128 ∧
         Z.log2 r = Z.log2 x ∧ Z.testbit r 6 = false.
Proof.
  intros Hlog Hbit.
  assert (Hpos : 0 < x).
  { destruct (Z.lt_trichotomy x 0) as [Hn|[->|Hp]]; [|done|done].
    rewrite Z.log2_nonpos in Hlog by lia. lia. }
  unfold get_top7_bits, bit_length.
  destruct (Z.eqb_spec x 0); [lia|]. rewrite Z.abs_eq by lia.
  destruct (Z.leb_spec 7 (Z.log2 x + 1)); [|lia].
  set (s := Z.log2 x + 1 - 7).
  assert (Hs : 1 <= s) by (subst s; lia).
  set (r := Z.land x (Z.lnot (Z.shiftl x s))).
  assert (Hr0 : 0 <= r) by (apply Z.land_nonneg; left; lia).
  assert (Htop : Z.testbit r (Z.log2 x) = true).
  { subst r. rewrite Z.land_spec, Z.lnot_spec by lia.
    rewrite Z.bit_log2 by lia. rewrite Z.shiftl_spec by lia.
    replace (Z.log2 x - s) with 6 by (subst s; lia). by rewrite Hbit. }
  exists (Z.shiftr x s), r. split_and!; [done| | | |].
  - apply Z.shiftr_nonneg. lia.
  - rewrite Z.shiftr_div_pow2 by lia.
    apply Z.div_lt_upper_bound; [apply Z.pow_pos_nonneg; lia|].
    change 128 with (2 ^ 7). rewrite <- Z.pow_add_r by lia.
    replace (s + 7) with (Z.succ (Z.log2 x)) by (subst s; lia).
    apply Z.log2_spec. lia.
  - apply Z.le_antisymm.
    + destruct (Z.le_gt_cases (Z.log2 r) (Z.log2 x)) as [|Hgt]; [done|].
      assert (Hrpos : 0 < r).
      { destruct (Z.eq_dec r 0) as [Hr|]; [|lia].
        rewrite Hr, Z.bits_0 in Htop. discriminate. }
      pose proof (Z.bit_log2 r Hrpos) as Hrb.
      subst r. rewrite Z.land_spec in Hrb.
      rewrite (Z.bits_above_log2 x) in Hrb by lia. discriminate.
    + destruct (Z.le_gt_cases (Z.log2 x) (Z.log2 r)) as [|Hlt]; [done|].
      rewrite Z.bits_above_log2 in Htop by lia. discriminate.
  - subst r. by rewrite Z.land_spec, Hbit.
Qed.

Lemma bertlv_encode_tag_loop_never_ends (fuel : nat) (tag_bytes : bytes) (x : Z) :
  7 <= Z.log2 x → Z.testbit x 6 = false →
  bertlv_encode_tag_loop fuel tag_bytes x = OutOfFuel.
Proof.
  revert tag_bytes x. induction fuel as [|fuel IH]; intros tag_bytes x Hlog Hbit;
    [reflexivity|].
  cbn [bertlv_encode_tag_loop].
  destruct (get_top7_bits_keeps_top x Hlog Hbit) as (t & r & -> & Ht & Hrlog & Hrbit).
  assert (Hr : r ≠ 0) by (intros ->; rewrite Z.log2_nonpos in Hrlog; lia).
  unfold truthy. destruct (Z.eqb_spec r 0); [done|]. cbn [negb].
  destruct (seven_bits t Ht) as (_ & _ & _ & _ & Hlor).
  rewrite bytes_of_int_low_byte by lia. cbn [mbind result_bind].
  apply IH; [lia|done].
Qed.

(** X30: the tag encoder does not terminate on any tag number from 128 on
    whose bit 6 is clear (128..191, 256..319, 384..447, ...), whatever the
    class and the constructed flag: [get_top7_bits] then leaves the top bit of
    the number in what it returns as the remaining bits, and the loop goes on
    appending continuation bytes. *)
Theorem bertlv_encode_tag_diverges (fuel : nat) (c : Z) (constr : bool)
    (number : Z) :
  128 <= number → Z.testbit number 6 = false →
  bertlv_encode_tag fuel (TagDict (mkBerTag c constr number)) = OutOfFuel.
Proof.
  intros Hn Hbit. cbn [bertlv_encode_tag]. unfold bertlv_encode_tag_dict.
  cbn [tag constructed cls]. destruct (Z.leb_spec number 30); [lia|].
  assert (Hlog : 7 <= Z.log2 number)
    by (change 7 with (Z.log2 128); apply Z.log2_le_mono; lia).
  assert (Hfirst : ∃ b, bytes_of_int
            (Z.lor (if constr then Z.lor 31 32 else 31) (Z.shiftl (Z.land c 3) 6))
            = Ok b).
  { assert (Hc : 0 <= Z.land c 3 < 4).
    { change 3 with (Z.ones 2). rewrite Z.land_ones by lia.
      apply Z.mod_pos_bound. lia. }
    assert (Hk : ∃ k : nat, Z.land c 3 = Z.of_nat k ∧ (k < 4)%nat)
      by (exists (Z.to_nat (Z.land c 3)); lia).
    destruct Hk as (k & -> & Hk).
    destruct constr; destruct k as [|[|[|[|k]]]]; try lia; by eexists. }
  destruct Hfirst as [b ->]. cbn [mbind result_bind].
  by apply bertlv_encode_tag_loop_never_ends.
Qed.

Lemma bertlv_encode_tag_diverges_witness :
  bertlv_encode_tag 1000 (TagDict (mkBerTag 2 true 300)) = OutOfFuel.
Proof.
  apply (bertlv_encode_tag_diverges 1000 2 true 300); [lia|reflexivity].
Defined.

(** ** None of the decoders runs out of fuel *)

(** X21: as long as the value codecs of the objects return, every decoding
    call returns or raises: the loops of [DataObjectCollection.decode] and of
    [DataObjectSequence.decode_multi] end within the turns their input
    length allows. *)
Theorem decoders_terminate (h : store) :
  codecs_terminate h →
  (∀ self do, snd (DataObject_from_tlv self do h) ≠ OutOfFuel) ∧
  (∀ self binary, snd (DataObject_decode self binary h) ≠ OutOfFuel) ∧
  (∀ self binary, snd (DataObjectCollection_decode self binary h) ≠ OutOfFuel) ∧
  (∀ self binary, snd (DataObjectChoice_decode self binary h) ≠ OutOfFuel) ∧
  (∀ self binary, snd (DataObjectSequence_decode self binary h) ≠ OutOfFuel) ∧
  (∀ self do, snd (DataObjectSequence_decode_multi self do h) ≠ OutOfFuel).
Proof.
  intros Hh. split_and!; intros.
  - by apply DataObject_from_tlv_terminates.
  - by apply DataObject_decode_terminates.
  - by apply DataObjectCollection_decode_terminates.
  - by apply DataObjectChoice_decode_terminates.
  - by apply DataObjectSequence_decode_loop_terminates.
  - by apply DataObjectSequence_decode_multi_terminates.
Qed.

Lemma decoders_terminate_witness :
  (∀ self do, snd (DataObject_from_tlv self do example_store) ≠ OutOfFuel) ∧
  (∀ self binary, snd (DataObject_decode self binary example_store) ≠ OutOfFuel) ∧
  (∀ self binary,
     snd (DataObjectCollection_decode self binary example_store) ≠ OutOfFuel) ∧
  (∀ self binary,
     snd (DataObjectChoice_decode self binary example_store) ≠ OutOfFuel) ∧
  (∀ self binary,
     snd (DataObjectSequence_decode self binary example_store) ≠ OutOfFuel) ∧
  (∀ self do,
     snd (DataObjectSequence_decode_multi self do example_store) ≠ OutOfFuel).
Proof.
  apply (decoders_terminate example_store).
  intros [|l] fb tb b; cbn; [discriminate|]. by intros [= <- _].
Defined.
